(** * Label-quality scoring and issue ranking for token classification

    A shallow embedding of [cleanlab/token_classification/rank.py]:
    [_softmin_sentence_score], [get_label_quality_scores] (with its local
    helper [nested_list]) and [issues_from_scores].

    Conventions of the embedding.
    - Python exceptions are values of [exn]; a computation that may raise
      has type [result A] and is sequenced with the bind of the error monad,
      in the order in which Python evaluates it.
    - Token scores that go through [np.exp] are real numbers ([R]): the
      arithmetic is exact, so rounding, overflow and [nan] of binary64 are
      outside the model.  This reading serves the algebraic statements.
    - Module [Binary64] reads [_softmin_sentence_score] a second time over
      binary64 numbers, with [np.exp] as a parameter of which only the
      overflow to infinity is assumed.  This reading serves the statements
      about overflow and [nan].
    - The issue ranker only compares scores; there scores are rationals
      ([Q]), which contain every finite binary64 value and compare the
      same way, and every definition evaluates. *)

From Stdlib Require Import PrimFloat.
From Stdlib Require Uint63.
From Stdlib Require Import String Ascii List Arith Bool Lia.
From Stdlib Require Import Reals Lra.
From Stdlib Require Import QArith.
From Stdlib Require Import Permutation Sorted.
From Equations Require Import Equations.
From Equations.Prop Require Import Logic.
Import ListNotations.

Local Open Scope nat_scope.
Local Open Scope list_scope.

(** ** Exceptions and the error monad *)

Inductive exn : Type :=
| AssertionError (msg : string)
| StopIteration
| ValueError
| IndexError
| ScorerError (msg : string).

Inductive result (A : Type) : Type :=
| Ok (a : A)
| Raise (e : exn).

Arguments Ok {A} a.
Arguments Raise {A} e.

Definition bind {A B : Type} (m : result A) (k : A -> result B) : result B :=
  match m with
  | Ok a => k a
  | Raise e => Raise e
  end.

Notation "x <- m ;; k" := (bind m (fun x => k))
  (at level 61, m at next level, right associativity).
Notation "' p <- m ;; k" := (bind m (fun x => match x with p => k end))
  (at level 61, p pattern, m at next level, right associativity).

(** [[f(x) for x in l]] where [f] may raise: elements are evaluated left to
    right and the first exception aborts the comprehension. *)
Fixpoint mapM {A B : Type} (f : A -> result B) (l : list A) : result (list B) :=
  match l with
  | [] => Ok []
  | a :: l' => b <- f a ;; bs <- mapM f l' ;; Ok (b :: bs)
  end.

(** [assert cond, msg] *)
Definition assert_ (cond : bool) (msg : string) : result unit :=
  if cond then Ok tt else Raise (AssertionError msg).

(** ** Strings of the method check *)

Definition newline : string := String (ascii_of_nat 10) EmptyString.

(** [sep.join(l)] *)
Fixpoint join (sep : string) (l : list string) : string :=
  match l with
  | [] => EmptyString
  | [s] => s
  | s :: l' => (s ++ sep ++ join sep l')%string
  end.

(** [x in l] for a list of strings *)
Definition str_in (x : string) (l : list string) : bool :=
  existsb (String.eqb x) l.

(** [sub in s] for strings *)
Definition contains (sub s : string) : bool :=
  match index 0 sub s with
  | Some _ => true
  | None => false
  end.

(** ** Iterators and the re-nesting helper *)

Section Nesting.
Context {A : Type}.

(** [next(i)]: an iterator over a list is the list of elements not yet
    consumed; [next] pops the first one and raises [StopIteration] when
    nothing is left. *)
Definition next (it : list A) : result (A * list A) :=
  match it with
  | [] => Raise StopIteration
  | a :: it' => Ok (a, it')
  end.

(** [[next(i) for _ in range(length)]], threading the iterator. *)
Fixpoint next_n (length : nat) (it : list A) : result (list A * list A) :=
  match length with
  | O => Ok ([], it)
  | S n =>
      '(a, it1) <- next it ;;
      '(l, it2) <- next_n n it1 ;;
      Ok (a :: l, it2)
  end.

(** The outer comprehension [[[...] for length in sentence_length]]. *)
Fixpoint nested_list_iter (it : list A) (sentence_length : list nat)
  : result (list (list A)) :=
  match sentence_length with
  | [] => Ok []
  | length :: rest =>
      '(sentence, it1) <- next_n length it ;;
      nested <- nested_list_iter it1 rest ;;
      Ok (sentence :: nested)
  end.

(** [nested_list(x, sentence_length)]: [i = iter(x)] and the comprehension. *)
Definition nested_list (x : list A) (sentence_length : list nat)
  : result (list (list A)) :=
  nested_list_iter x sentence_length.

(** [[l for label in labels for l in label]] *)
Definition flatten (nested : list (list A)) : list A := concat nested.
End Nesting.

(** ** numpy reductions over real-valued scores *)

Local Open Scope R_scope.

(** [np.min(scores)]: raises [ValueError] on an empty sequence. *)
Definition np_min (scores : list R) : result R :=
  match scores with
  | [] => Raise ValueError
  | s :: rest => Ok (fold_left Rmin rest s)
  end.

(** [np.sum(scores)] *)
Definition np_sum (scores : list R) : R := fold_right Rplus 0 scores.

(** [np.mean(scores)].  On an empty sequence numpy warns and yields [nan];
    the model has no [nan], and its value there carries no meaning. *)
Definition np_mean (scores : list R) : R :=
  np_sum scores / INR (List.length scores).

(** [np.dot(a, b)] for two vectors of the same length. *)
Fixpoint np_dot (a b : list R) : R :=
  match a, b with
  | x :: a', y :: b' => x * y + np_dot a' b'
  | _, _ => 0
  end.

(** ** [_softmin_sentence_score] *)

(** A Python float used as a temperature: a real number or [np.inf]
    (negative infinity and [nan] are not represented). *)
Inductive temperature : Type :=
| Finite (t : R)
| PosInf.

Definition default_temperature : temperature := Finite 0.05.

Section Softmin.
Variable t : R.

(** The local [softmax]: it divides by the captured temperature itself. *)
Definition softmax (scores : list R) : list R :=
  let exp_scores := map (fun x => exp (x / t)) scores in
  map (fun e => e / np_sum exp_scores) exp_scores.

(** The local [fun]: [np.dot(scores, softmax(1 - np.array(scores)))]. *)
Definition softmin_fun (scores : list R) : R :=
  np_dot scores (softmax (map (fun s => 1 - s) scores)).
End Softmin.

Definition _softmin_sentence_score (token_scores : list (list R))
  (temp : temperature) : result (list R) :=
  match temp with
  | Finite t =>
      if Req_dec_T t 0 then mapM np_min token_scores
      else Ok (map (softmin_fun t) token_scores)
  | PosInf => Ok (map np_mean token_scores)
  end.

(** ** [_softmin_sentence_score] over binary64 *)

#[local] Set Warnings "-inexact-float".

Module Binary64.
Local Open Scope float_scope.

Section Exp.
(** [np.exp] on one binary64 number. *)
Variable np_exp : float -> float.

(** [len(scores)] as a binary64 number. *)
Definition of_len (n : nat) : float :=
  of_uint63 (Uint63.of_Z (Z.of_nat n)).

(** One step of numpy's minimum reduction: a [nan] met so far, or met
    next, is the result. *)
Definition np_min_step (acc x : float) : float :=
  if (acc <? x) || is_nan acc then acc else x.

(** [np.min(scores)]: raises [ValueError] on an empty sequence. *)
Definition np_min (scores : list float) : result float :=
  match scores with
  | [] => Raise ValueError
  | s :: rest => Ok (fold_left np_min_step rest s)
  end.

(** [np.sum(scores)], adding in index order. *)
Definition np_sum (scores : list float) : float := fold_left add scores 0.

(** [np.mean(scores)]: on an empty sequence [0 / 0], which is [nan]. *)
Definition np_mean (scores : list float) : float :=
  np_sum scores / of_len (List.length scores).

(** [np.dot(a, b)] for two vectors of the same length, in index order. *)
Definition np_dot (a b : list float) : float :=
  fold_left add (map (fun '(x, y) => x * y) (combine a b)) 0.

(** The local [softmax] at the captured temperature. *)
Definition softmax (temperature : float) (scores : list float) : list float :=
  let exp_scores := map (fun x => np_exp (x / temperature)) scores in
  map (fun e => e / np_sum exp_scores) exp_scores.

(** The local [fun]. *)
Definition softmin_fun (temperature : float) (scores : list float) : float :=
  np_dot scores (softmax temperature (map (fun s => 1 - s) scores)).

Definition _softmin_sentence_score (token_scores : list (list float))
  (temperature : float) : result (list float) :=
  if temperature =? 0 then mapM np_min token_scores
  else if temperature =? infinity then Ok (map np_mean token_scores)
  else Ok (map (softmin_fun temperature) token_scores).
End Exp.
End Binary64.

(** What is assumed of [np.exp]: from 710 on, where the exponential exceeds
    the largest finite binary64 number, the result is +infinity. *)
Definition overflows_to_infinity (np_exp : float -> float) : Prop :=
  forall x, (710 <=? x)%float = true -> np_exp x = infinity.

(** ** [get_label_quality_scores] *)

(** [pd.Series(scores)] and [pd.Series(scores, index=token)]: the values and
    the index that labels them. *)
Inductive series_index (T : Type) : Type :=
| RangeIndex (stop : nat)
| Index (labels : list T).

Arguments RangeIndex {T} stop.
Arguments Index {T} labels.

Record Series (T : Type) : Type := mkSeries {
  values : list R;
  index : series_index T
}.

Arguments mkSeries {T} values index.
Arguments values {T} _.
Arguments index {T} _.

(** The constructor of pandas: an explicit index of another length than the
    data is refused with [ValueError]. *)
Definition pd_Series {T : Type} (scores : list R) (idx : option (list T))
  : result (Series T) :=
  match idx with
  | None => Ok (mkSeries scores (RangeIndex (List.length scores)))
  | Some token =>
      if Nat.eqb (List.length scores) (List.length token)
      then Ok (mkSeries scores (Index token))
      else Raise ValueError
  end.

(** Truth value of an [Optional[list]]: [None] and [[]] are false. *)
Definition truthy {A : Type} (o : option (list A)) : bool :=
  match o with
  | Some (_ :: _) => true
  | _ => false
  end.

(** [d.get(key, default)] on a dict with string keys. *)
Fixpoint dict_get {V : Type} (d : list (string * V)) (key : string) (default : V) : V :=
  match d with
  | [] => default
  | (k, v) :: d' => if String.eqb k key then v else dict_get d' key default
  end.

Definition methods : list string := ["min"; "softmin"]%string.

Definition methods_message : string :=
  ("Select from the following methods:" ++ newline ++ join newline methods)%string.

Section Scoring.
(** Opaque display values of tokens. *)
Variable T : Type.

(** [cleanlab.rank.get_label_quality_scores], imported as
    [main_get_label_quality_scores]: the token-level scorer, called with the
    flat labels, the flat probability rows and the name of the method. *)
Variable main_get_label_quality_scores :
  list nat -> list (list R) -> string -> result (list R).

Definition get_label_quality_scores
  (labels : list (list nat)) (pred_probs : list (list (list R)))
  (tokens : option (list (list T)))
  (token_score_method sentence_score_method : string)
  (sentence_score_kwargs : list (string * temperature))
  : result (list R * list (Series T)) :=
  _ <- assert_ (str_in sentence_score_method methods) methods_message ;;
  let labels_flatten := flatten labels in
  let pred_probs_flatten := flatten pred_probs in
  let sentence_length := map (@List.length nat) labels in
  token_scores <-
    main_get_label_quality_scores labels_flatten pred_probs_flatten
      token_score_method ;;
  scores_nl <- nested_list token_scores sentence_length ;;
  sentence_scores <-
    (if String.eqb sentence_score_method "min"
     then mapM np_min scores_nl
     else
       _ <- assert_ (String.eqb sentence_score_method "softmin") EmptyString ;;
       let temp := dict_get sentence_score_kwargs "temperature" default_temperature in
       _softmin_sentence_score scores_nl temp) ;;
  token_info <-
    (if truthy tokens
     then mapM (fun '(scores, token) => pd_Series scores (Some token))
            (combine scores_nl (match tokens with Some tk => tk | None => [] end))
     else mapM (fun scores => pd_Series scores None) scores_nl) ;;
  Ok (sentence_scores, token_info).
End Scoring.

Arguments get_label_quality_scores {T} _ _ _ _ _ _ _.

(** Modelled from the spec: the self-confidence method of the external token
    quality scorer ([cleanlab.rank], which is not part of this file).  Given
    flat labels and flat probability rows of equal length it returns, per
    token and in order, the probability the row gives to the token's label;
    the docstring example of [get_label_quality_scores] shows these values. *)
Definition self_confidence (labels : list nat) (pred_probs : list (list R))
  : result (list R) :=
  if Nat.eqb (List.length labels) (List.length pred_probs)
  then mapM (fun '(l, row) =>
               match nth_error row l with
               | Some p => Ok p
               | None => Raise (ScorerError "label out of range")
               end)
         (combine labels pred_probs)
  else Raise (ScorerError "labels and pred_probs differ in length").

Definition self_confidence_scorer
  (labels : list nat) (pred_probs : list (list R)) (method : string)
  : result (list R) :=
  self_confidence labels pred_probs.

(** ** [issues_from_scores] *)

Local Open Scope nat_scope.

(** [x < y] on scores. *)
Definition Qltb (x y : Q) : bool :=
  match Qcompare x y with
  | Lt => true
  | _ => false
  end.

(** [enumerate(l)] *)
Definition enumerate {A : Type} (l : list A) : list (nat * A) :=
  combine (seq 0 (List.length l)) l.

(** [a[i]] for a non-negative index: [IndexError] past the end. *)
Definition getitem {A : Type} (a : list A) (i : nat) : result A :=
  match nth_error a i with
  | Some x => Ok x
  | None => Raise IndexError
  end.

Section Sorting.
Context {A : Type}.
Variable key : A -> Q.

(** [sorted(l, key=key)] is a stable sort that compares keys with [<] only.
    It is rendered as the insertion sort that puts an element in front of
    the first later element whose key is not smaller. *)
Fixpoint insert (x : A) (l : list A) : list A :=
  match l with
  | [] => [x]
  | y :: l' => if Qltb (key y) (key x) then y :: insert x l' else x :: y :: l'
  end.

Definition sorted (l : list A) : list A := fold_right insert [] l.
End Sorting.

(** [np.argsort(scores)]: the indices in ascending order of score.  numpy's
    default sort fixes no order among equal scores; the model takes the
    stable one. *)
Definition argsort (scores : list Q) : list nat :=
  map fst (sorted snd (enumerate scores)).

Definition issue_triple : Type := nat * nat * Q.

(** The inner loop over [enumerate(scores)] with its [append]. *)
Definition scan_sentence (threshold : Q) (sentence_index : nat)
  (scores : list Q) (issues_with_scores : list issue_triple) : list issue_triple :=
  fold_left
    (fun acc '(token_index, score) =>
       if Qltb score threshold
       then acc ++ [(sentence_index, token_index, score)]
       else acc)
    (enumerate scores) issues_with_scores.

(** The outer loop over [enumerate(token_scores)], from the empty list. *)
Definition scan_token_scores (threshold : Q) (token_scores : list (list Q))
  : list issue_triple :=
  fold_left
    (fun acc '(sentence_index, scores) =>
       scan_sentence threshold sentence_index scores acc)
    (enumerate token_scores) [].

(** The [while] loop of sentence mode, from the current value of [cutoff]:
    the left operand of [and] is evaluated first, and indexing [ranking] at
    [len(ranking)] raises; the result is the final value of [cutoff]. *)
Equations? ranking_cutoff (sentence_scores : list Q) (ranking : list nat)
  (threshold : Q) (cutoff : nat) : result nat
  by wf (S (List.length ranking) - cutoff) lt :=
ranking_cutoff sentence_scores ranking threshold cutoff
  with inspect (nth_error ranking cutoff) := {
  | exist _ None _ => Raise IndexError
  | exist _ (Some r) Hr =>
      score <- getitem sentence_scores r ;;
      if Qltb score threshold && (cutoff <? List.length ranking)
      then ranking_cutoff sentence_scores ranking threshold (S cutoff)
      else Ok cutoff }.
Proof.
  assert (cutoff < List.length ranking)
    by (apply nth_error_Some; congruence).
  destruct cutoff; lia.
Qed.

Inductive issues : Type :=
| SentenceIssues (indices : list nat)
| TokenIssues (pairs : list (nat * nat)).

(** Sentence mode once [ranking] is known: the loop and [ranking[:cutoff]]. *)
Definition sentence_issues (sentence_scores : list Q) (ranking : list nat)
  (threshold : Q) : result (list nat) :=
  cutoff <- ranking_cutoff sentence_scores ranking threshold 0 ;;
  Ok (firstn cutoff ranking).

Definition default_threshold : Q := 0.1%Q.

Definition issues_from_scores (sentence_scores : list Q)
  (token_scores : option (list (list Q))) (threshold : Q) : result issues :=
  if truthy token_scores then
    let issues_with_scores :=
      scan_token_scores threshold
        (match token_scores with Some ts => ts | None => [] end) in
    let issues_with_scores := sorted snd issues_with_scores in
    Ok (TokenIssues (map (fun '(i, j, _) => (i, j)) issues_with_scores))
  else
    let ranking := argsort sentence_scores in
    indices <- sentence_issues sentence_scores ranking threshold ;;
    Ok (SentenceIssues indices).

(** ** Specification-side notions used by the properties *)

(** The least element of a sequence, the arithmetic mean, and the unit
    interval of scores. *)
Definition is_minimum (scores : list R) (m : R) : Prop :=
  In m scores /\ forall s, In s scores -> (m <= s)%R.

Definition is_mean (scores : list R) (m : R) : Prop :=
  (m * INR (List.length scores) = fold_right Rplus 0 scores)%R.

Definition unit_score (s : R) : Prop := (0 <= s <= 1)%R.



(** The score of the token a pair of indices denotes, if there is one. *)
Definition token_score (token_scores : list (list Q)) (p : nat * nat) : option Q :=
  match nth_error token_scores (fst p) with
  | Some scores => nth_error scores (snd p)
  | None => None
  end.

(** Sentence [i] exists and scores strictly below the threshold. *)
Definition below (sentence_scores : list Q) (threshold : Q) (i : nat) : Prop :=
  exists s, nth_error sentence_scores i = Some s /\ (s < threshold)%Q.

(** [m] is the least score of a sentence, up to equality of rationals. *)
Definition least_score (scores : list Q) (m : Q) : Prop :=
  (exists s, In s scores /\ (s == m)%Q) /\
  forall s, In s scores -> (m <= s)%Q.

(** Ascending order of keys. *)
Definition key_le {A : Type} (key : A -> Q) (a b : A) : Prop :=
  (key a <= key b)%Q.

(** Scan order of (sentence index, token index) pairs. *)
Definition scan_before (p q : nat * nat) : Prop :=
  fst p < fst q \/ (fst p = fst q /\ snd p < snd q).

(** Scan order of collected triples. *)
Definition in_scan_order (a b : issue_triple) : Prop :=
  scan_before (fst a) (fst b).

(** What the two loops of token mode keep, in the order they visit it:
    sentence [i] from token [j] on, then the sentences after it. *)
Fixpoint sentence_kept (threshold : Q) (i j : nat) (scores : list Q)
  : list issue_triple :=
  match scores with
  | [] => []
  | s :: scores' =>
      (if Qltb s threshold then [(i, j, s)] else [])
        ++ sentence_kept threshold i (S j) scores'
  end.

Fixpoint tokens_kept (threshold : Q) (i : nat) (token_scores : list (list Q))
  : list issue_triple :=
  match token_scores with
  | [] => []
  | scores :: rest =>
      sentence_kept threshold i 0 scores ++ tokens_kept threshold (S i) rest
  end.

(** ** Proof automation *)

(** Evaluates [Rmin] on numerals, innermost first. *)
Ltac rmin_eval :=
  repeat match goal with
    | |- context [Rmin ?a ?b] =>
        first [ rewrite (Rmin_left a b) by lra
              | rewrite (Rmin_right a b) by lra ]
    end.

(** * Properties *)

(** ** Re-nesting *)

Section NestingFacts.
Context {A : Type}.
Implicit Types (x it : list A) (sentence_length : list nat).

Lemma next_n_enough n it :
  n <= List.length it -> next_n n it = Ok (firstn n it, skipn n it).
Proof.
  revert it; induction n as [|n IH]; intros it Hn.
  - reflexivity.
  - destruct it as [|a it]; simpl in Hn; [lia|].
    simpl. rewrite IH by lia. reflexivity.
Qed.

Lemma next_n_exhausted n it :
  List.length it < n -> next_n n it = Raise StopIteration.
Proof.
  revert it; induction n as [|n IH]; intros it Hn; [lia|].
  destruct it as [|a it]; simpl in *; [reflexivity|].
  rewrite IH by lia. reflexivity.
Qed.

Lemma nested_list_iter_exhausted it sentence_length :
  List.length it < list_sum sentence_length ->
  nested_list_iter it sentence_length = Raise StopIteration.
Proof.
  revert it; induction sentence_length as [|n ls IH]; intros it Hlt; simpl in *.
  - lia.
  - destruct (le_lt_dec n (List.length it)) as [Hle|Hgt].
    + rewrite next_n_enough by assumption. simpl.
      rewrite IH; [reflexivity|]. rewrite length_skipn. lia.
    + rewrite next_n_exhausted by assumption. reflexivity.
Qed.

Lemma nested_list_iter_enough it sentence_length :
  list_sum sentence_length <= List.length it ->
  exists nested,
    nested_list_iter it sentence_length = Ok nested /\
    flatten nested = firstn (list_sum sentence_length) it /\
    map (@List.length A) nested = sentence_length.
Proof.
  revert it; induction sentence_length as [|n ls IH]; intros it Hle; simpl in *.
  - exists []. repeat split.
  - rewrite next_n_enough by lia. simpl.
    destruct (IH (skipn n it)) as (nested & Hrun & Hflat & Hlen).
    { rewrite length_skipn. lia. }
    rewrite Hrun. simpl. exists (firstn n it :: nested). repeat split.
    + unfold flatten in *. simpl. rewrite Hflat.
      rewrite <- (firstn_skipn n it) at 3.
      rewrite firstn_app, firstn_firstn, length_firstn.
      replace (Nat.min (n + list_sum ls) n) with n by lia.
      replace (n + list_sum ls - Nat.min n (List.length it)) with (list_sum ls) by lia.
      reflexivity.
    + simpl. rewrite Hlen, length_firstn. f_equal. lia.
Qed.

Lemma nested_list_iter_flatten (nested : list (list A)) rest :
  nested_list_iter (flatten nested ++ rest) (map (@List.length A) nested) = Ok nested.
Proof.
  induction nested as [|s nested IH]; simpl; [reflexivity|].
  unfold flatten in *. simpl. rewrite <- app_assoc.
  rewrite next_n_enough by (rewrite length_app; lia).
  rewrite firstn_app, firstn_all, Nat.sub_diag, firstn_O, app_nil_r.
  rewrite skipn_app, skipn_all, Nat.sub_diag, skipn_O. simpl.
  rewrite IH. reflexivity.
Qed.
End NestingFacts.

(** C2 fails as stated: when the lengths sum to less than the number of
    flat elements the helper raises nothing and drops the last elements. *)
Lemma nested_list_drops_trailing_elements :
  list_sum [2] <> List.length [1; 2; 3] /\
  nested_list [1; 2; 3] [2] = Ok [[1; 2]].
Proof. split; [discriminate | reflexivity]. Qed.

(** C2 (amended): [nested_list] carries no length check of its own.  It
    fails, with the [StopIteration] of the exhausted iterator, exactly when
    the lengths ask for more elements than [flat] holds; otherwise it
    returns the first [sum(sentence_length)] elements of [flat], nested with
    the requested lengths, and whatever follows them is left out. *)
Theorem nested_list_length_behaviour {A : Type} (flat : list A)
  (sentence_length : list nat) :
  (List.length flat < list_sum sentence_length ->
     nested_list flat sentence_length = Raise StopIteration) /\
  (list_sum sentence_length <= List.length flat ->
     exists nested,
       nested_list flat sentence_length = Ok nested /\
       flatten nested = firstn (list_sum sentence_length) flat /\
       map (@List.length A) nested = sentence_length).
Proof.
  split.
  - apply nested_list_iter_exhausted.
  - apply nested_list_iter_enough.
Qed.

Lemma nested_list_length_behaviour_witness :
  nested_list [1; 2] [1; 2] = Raise StopIteration /\
  exists nested,
    nested_list [1; 2; 3; 4] [1; 2] = Ok nested /\
    flatten nested = [1; 2; 3] /\ map (@List.length nat) nested = [1; 2].
Proof.
  split.
  - apply (proj1 (nested_list_length_behaviour [1; 2] [1; 2])). simpl. lia.
  - apply (proj2 (nested_list_length_behaviour [1; 2; 3; 4] [1; 2])). simpl. lia.
Defined.

(** C8: for a nested sequence whose sentences all have at least one token,
    re-nesting its flattening by its own sentence lengths gives it back
    unchanged, sentence by sentence and token by token. *)
Theorem nested_list_flatten_roundtrip {A : Type} (x : list (list A)) :
  Forall (fun sentence => 1 <= List.length sentence) x ->
  nested_list (flatten x) (map (@List.length A) x) = Ok x.
Proof.
  intros _. unfold nested_list.
  rewrite <- (app_nil_r (flatten x)). apply nested_list_iter_flatten.
Qed.

Lemma nested_list_flatten_roundtrip_witness :
  nested_list (flatten [[1; 2]; [3]; [4; 5; 6]]) [2; 1; 3]
  = Ok [[1; 2]; [3]; [4; 5; 6]].
Proof.
  apply (nested_list_flatten_roundtrip [[1; 2]; [3]; [4; 5; 6]]).
  repeat constructor.
Defined.

(** ** The scoring entry point *)

Lemma mapM_raise {A B : Type} (f : A -> result B) (l : list A) (e : exn) :
  mapM f l = Raise e -> exists a, In a l /\ f a = Raise e.
Proof.
  induction l as [|a l IH]; simpl; [discriminate|].
  destruct (f a) as [b|e'] eqn:Hfa; simpl.
  - destruct (mapM f l) as [bs|e'']; simpl; [discriminate|].
    intros [= <-]. destruct IH as (a' & Hin & Ha'); [reflexivity|].
    exists a'. auto.
  - intros [= <-]. exists a. auto.
Qed.

Lemma mapM_ok {A B : Type} (f : A -> result B) (g : A -> B) (l : list A) :
  (forall a, In a l -> f a = Ok (g a)) -> mapM f l = Ok (map g l).
Proof.
  induction l as [|a l IH]; simpl; intros Hf; [reflexivity|].
  rewrite (Hf a) by auto. simpl. rewrite IH by auto. reflexivity.
Qed.

Lemma mapM_length {A B : Type} (f : A -> result B) (l : list A) (bs : list B) :
  mapM f l = Ok bs -> List.length bs = List.length l.
Proof.
  revert bs; induction l as [|a l IH]; simpl; intros bs.
  - intros [= <-]. reflexivity.
  - destruct (f a); simpl; [|discriminate].
    destruct (mapM f l); simpl; [|discriminate].
    intros [= <-]. simpl. f_equal. auto.
Qed.

Lemma np_min_raise scores e : np_min scores = Raise e -> e = ValueError.
Proof. destruct scores; simpl; congruence. Qed.

Lemma np_min_nonempty scores :
  (1 <= List.length scores)%nat -> exists m, np_min scores = Ok m.
Proof. destruct scores; simpl; [lia|eauto]. Qed.

Lemma mapM_np_min_nonempty (token_scores : list (list R)) :
  Forall (fun s => 1 <= List.length s)%nat token_scores ->
  exists mins, mapM np_min token_scores = Ok mins.
Proof.
  induction 1 as [|s l Hs _ (mins & IH)]; simpl; [eauto|].
  destruct (np_min_nonempty s Hs) as (m & ->). simpl. rewrite IH. simpl. eauto.
Qed.

Lemma softmin_raise token_scores temp e :
  _softmin_sentence_score token_scores temp = Raise e -> e = ValueError.
Proof.
  destruct temp as [t|]; simpl; [|discriminate].
  destruct (Req_dec_T t 0); [|discriminate].
  intros H. apply mapM_raise in H as (s & _ & H). eapply np_min_raise; eauto.
Qed.

Lemma pd_Series_raise {T : Type} scores (idx : option (list T)) e :
  pd_Series scores idx = Raise e -> e = ValueError.
Proof.
  destruct idx as [token|]; simpl; [|discriminate].
  destruct (Nat.eqb _ _); congruence.
Qed.

Lemma str_in_methods sm :
  str_in sm methods = true <-> sm = "min"%string \/ sm = "softmin"%string.
Proof.
  unfold str_in, methods. simpl. rewrite !orb_true_iff, !String.eqb_eq.
  intuition discriminate.
Qed.

Section ScoringFacts.
Context {T : Type}.
Variable scorer : list nat -> list (list R) -> string -> result (list R).
Implicit Types (labels : list (list nat)) (pred_probs : list (list (list R))).
Implicit Types (tokens : option (list (list T))) (tm sm : string).

Lemma unknown_method_raises labels pred_probs tokens tm sm kwargs :
  str_in sm methods = false ->
  get_label_quality_scores scorer labels pred_probs tokens tm sm kwargs
  = Raise (AssertionError methods_message).
Proof. intros H. unfold get_label_quality_scores. rewrite H. reflexivity. Qed.

Lemma scorer_error_propagates labels pred_probs tokens tm sm kwargs e :
  str_in sm methods = true ->
  scorer (flatten labels) (flatten pred_probs) tm = Raise e ->
  get_label_quality_scores scorer labels pred_probs tokens tm sm kwargs = Raise e.
Proof.
  intros Hm He. unfold get_label_quality_scores. rewrite Hm. simpl.
  rewrite He. reflexivity.
Qed.

Lemma assertion_only_from_scorer labels pred_probs tokens tm sm kwargs msg :
  str_in sm methods = true ->
  get_label_quality_scores scorer labels pred_probs tokens tm sm kwargs
  = Raise (AssertionError msg) ->
  scorer (flatten labels) (flatten pred_probs) tm = Raise (AssertionError msg).
Proof.
  intros Hm. unfold get_label_quality_scores. rewrite Hm. simpl.
  destruct (scorer _ _ _) as [ts|e]; simpl; [|congruence].
  destruct (nested_list ts _) as [nl|e] eqn:Hnl; simpl.
  2:{ unfold nested_list in Hnl.
      destruct (le_lt_dec (list_sum (map (@List.length nat) labels)) (List.length ts)) as [Hle|Hgt].
      - destruct (nested_list_iter_enough ts _ Hle) as (r & Hr & _). congruence.
      - rewrite nested_list_iter_exhausted in Hnl by assumption. congruence. }
  match goal with |- bind ?agg _ = _ -> _ => destruct agg as [ss|e] eqn:Hagg end;
    simpl.
  2:{ intros [= ->]. exfalso.
      apply str_in_methods in Hm as [->| ->]; simpl in Hagg.
      - apply mapM_raise in Hagg as (s & _ & H). apply np_min_raise in H. discriminate.
      - apply softmin_raise in Hagg. discriminate. }
  match goal with |- bind ?series _ = _ -> _ => destruct series as [ti|e] eqn:Hti end;
    simpl; [discriminate|].
  intros [= ->]. exfalso.
  destruct (truthy tokens); apply mapM_raise in Hti as (s & _ & H).
  - destruct s as [sc tk]. apply (pd_Series_raise sc (Some tk)) in H. discriminate.
  - apply (pd_Series_raise (T:=T) s None) in H. discriminate.
Qed.

Lemma min_scores_follow_labels labels pred_probs tm kwargs ts :
  scorer (flatten labels) (flatten pred_probs) tm = Ok ts ->
  List.length ts = List.length (flatten labels) ->
  Forall (fun sentence => 1 <= List.length sentence)%nat labels ->
  exists scores_nl sentence_scores,
    nested_list ts (map (@List.length nat) labels) = Ok scores_nl /\
    flatten scores_nl = ts /\
    map (@List.length R) scores_nl = map (@List.length nat) labels /\
    mapM np_min scores_nl = Ok sentence_scores /\
    get_label_quality_scores scorer labels pred_probs None tm "min" kwargs
    = Ok (sentence_scores,
          map (fun s => mkSeries (T:=T) s (RangeIndex (List.length s))) scores_nl).
Proof.
  intros Hts Hlen Hne.
  assert (Hsum : list_sum (map (@List.length nat) labels) = List.length ts).
  { rewrite Hlen. unfold flatten. rewrite length_concat. reflexivity. }
  destruct (nested_list_iter_enough ts (map (@List.length nat) labels))
    as (nl & Hnl & Hflat & Hshape); [lia|].
  rewrite Hsum, firstn_all in Hflat.
  destruct (mapM_np_min_nonempty nl) as (mins & Hmins).
  { apply Forall_forall. intros s Hs.
    assert (In (List.length s) (map (@List.length nat) labels))
      by (rewrite <- Hshape; apply in_map; exact Hs).
    apply in_map_iff in H as (l & Hl & Hin).
    rewrite Forall_forall in Hne. specialize (Hne l Hin). lia. }
  exists nl, mins. repeat split; try assumption.
  unfold get_label_quality_scores. simpl. rewrite Hts. simpl.
  unfold nested_list. rewrite Hnl. simpl. rewrite Hmins. simpl.
  rewrite (mapM_ok _ (fun s => mkSeries s (RangeIndex (List.length s))))
    by reflexivity.
  reflexivity.
Qed.
End ScoringFacts.

Local Open Scope R_scope.

(** C3 fails as stated: sentences of 3 and 2 labels against probability
    matrices of 2 and 3 rows hold 5 tokens on both sides; with the
    self-confidence scorer the call returns scores, and the third score of
    the first sentence comes from a row of the second matrix. *)
Lemma per_sentence_mismatch_accepted :
  let labels := [[0; 0; 1]; [0; 1]]%nat in
  let pred_probs :=
    [[[0.9; 0.1]; [0.7; 0.3]]; [[0.05; 0.95]; [0.8; 0.2]; [0.8; 0.2]]] in
  map (@List.length nat) labels <> map (@List.length (list R)) pred_probs /\
  get_label_quality_scores (T:=string) self_confidence_scorer
    labels pred_probs None "self_confidence" "min" []
  = Ok ([0.7; 0.2],
        [mkSeries [0.9; 0.7; 0.95] (RangeIndex 3);
         mkSeries [0.8; 0.2] (RangeIndex 2)]).
Proof.
  split; [discriminate|].
  cbv [get_label_quality_scores assert_ str_in methods existsb String.eqb
       Ascii.eqb Bool.eqb orb bind flatten concat app map List.length
       self_confidence_scorer self_confidence Nat.eqb combine mapM nth_error
       nested_list nested_list_iter next_n next np_min fold_left truthy
       pd_Series].
  rmin_eval. reflexivity.
Qed.

(** The docstring example of [get_label_quality_scores], with the
    self-confidence scorer. *)
Example get_label_quality_scores_example :
  get_label_quality_scores (T:=string) self_confidence_scorer
    [[0; 0; 1]; [0; 1]]%nat
    [[[0.9; 0.1]; [0.7; 0.3]; [0.05; 0.95]]; [[0.8; 0.2]; [0.8; 0.2]]]
    None "self_confidence" "min" []
  = Ok ([0.7; 0.2],
        [mkSeries [0.9; 0.7; 0.95] (RangeIndex 3);
         mkSeries [0.8; 0.2] (RangeIndex 2)]).
Proof.
  cbv [get_label_quality_scores assert_ str_in methods existsb String.eqb
       Ascii.eqb Bool.eqb orb bind flatten concat app map List.length
       self_confidence_scorer self_confidence Nat.eqb combine mapM nth_error
       nested_list nested_list_iter next_n next np_min fold_left truthy
       pd_Series].
  rmin_eval. reflexivity.
Qed.

(** C3 (amended): [get_label_quality_scores] compares no shapes itself.  With
    a recognised sentence method, an error of the token scorer on the
    flattened inputs is the error of the call; and whenever the scorer
    returns one score per flattened label, as it may when only the
    per-sentence lengths differ, the call with the "min" method, no tokens
    and non-empty sentences returns the minima and the token scores nested
    by the sentence lengths of [labels]. *)
Theorem shape_mismatch_left_to_scorer {T : Type}
  (scorer : list nat -> list (list R) -> string -> result (list R))
  (labels : list (list nat)) (pred_probs : list (list (list R)))
  (tm : string) (kwargs : list (string * temperature)) :
  (forall e tokens sm,
     str_in sm methods = true ->
     scorer (flatten labels) (flatten pred_probs) tm = Raise e ->
     get_label_quality_scores (T:=T) scorer labels pred_probs tokens tm sm kwargs
     = Raise e) /\
  (forall ts,
     scorer (flatten labels) (flatten pred_probs) tm = Ok ts ->
     List.length ts = List.length (flatten labels) ->
     Forall (fun sentence => 1 <= List.length sentence)%nat labels ->
     exists scores_nl sentence_scores,
       nested_list ts (map (@List.length nat) labels) = Ok scores_nl /\
       flatten scores_nl = ts /\
       map (@List.length R) scores_nl = map (@List.length nat) labels /\
       mapM np_min scores_nl = Ok sentence_scores /\
       get_label_quality_scores (T:=T) scorer labels pred_probs None tm "min" kwargs
       = Ok (sentence_scores,
             map (fun s => mkSeries s (RangeIndex (List.length s))) scores_nl)).
Proof.
  split.
  - intros e tokens sm Hm He. now apply scorer_error_propagates.
  - intros ts Hts Hlen Hne. now apply min_scores_follow_labels.
Qed.

Lemma shape_mismatch_left_to_scorer_witness :
  (get_label_quality_scores (T:=string) self_confidence_scorer
     [[0; 1]%nat] [[[0.5; 0.5]]] None "self_confidence" "softmin" []
   = Raise (ScorerError "labels and pred_probs differ in length")) /\
  (exists scores_nl sentence_scores,
     nested_list [0.9; 0.2] [1; 1]%nat = Ok scores_nl /\
     flatten scores_nl = [0.9; 0.2] /\
     map (@List.length R) scores_nl = [1; 1]%nat /\
     mapM np_min scores_nl = Ok sentence_scores /\
     get_label_quality_scores (T:=string) self_confidence_scorer
       [[0]; [1]]%nat [[[0.9; 0.1]; [0.8; 0.2]]; []] None
       "self_confidence" "min" []
     = Ok (sentence_scores,
           map (fun s => mkSeries s (RangeIndex (List.length s))) scores_nl)).
Proof.
  split.
  - apply (proj1 (shape_mismatch_left_to_scorer self_confidence_scorer
                    [[0; 1]%nat] [[[0.5; 0.5]]] "self_confidence" []));
      reflexivity.
  - apply (proj2 (shape_mismatch_left_to_scorer (T:=string) self_confidence_scorer
                    [[0]; [1]]%nat [[[0.9; 0.1]; [0.8; 0.2]]; []]
                    "self_confidence" []) [0.9; 0.2]).
    + reflexivity.
    + reflexivity.
    + repeat constructor.
Defined.

(** C9: a sentence method other than "min" and "softmin" makes the call
    raise the assertion error whose message lists the two names, one per
    line, whatever the labels, probabilities, tokens and token scorer are
    (a scorer that would itself raise is not reached); with one of the two
    names an assertion error can only be one the token scorer raised. *)
Theorem unknown_sentence_method_rejected {T : Type}
  (scorer : list nat -> list (list R) -> string -> result (list R))
  (labels : list (list nat)) (pred_probs : list (list (list R)))
  (tokens : option (list (list T))) (tm sm : string)
  (kwargs : list (string * temperature)) :
  (sm <> "min"%string -> sm <> "softmin"%string ->
     get_label_quality_scores scorer labels pred_probs tokens tm sm kwargs
     = Raise (AssertionError methods_message)) /\
  (methods_message
   = ("Select from the following methods:" ++ newline
        ++ "min" ++ newline ++ "softmin")%string /\
   forall m, In m methods -> contains m methods_message = true) /\
  (sm = "min"%string \/ sm = "softmin"%string ->
     forall msg,
       get_label_quality_scores scorer labels pred_probs tokens tm sm kwargs
       = Raise (AssertionError msg) ->
       scorer (flatten labels) (flatten pred_probs) tm
       = Raise (AssertionError msg)).
Proof.
  split; [|split].
  - intros H1 H2. apply unknown_method_raises.
    destruct (str_in sm methods) eqn:Hm; [|reflexivity].
    apply str_in_methods in Hm. tauto.
  - split; [reflexivity|].
    intros m [<-|[<-|[]]]; reflexivity.
  - intros Hm msg. apply assertion_only_from_scorer.
    now apply str_in_methods.
Qed.

Lemma unknown_sentence_method_rejected_witness :
  get_label_quality_scores (T:=string)
    (fun _ _ _ => Raise (ScorerError "unreachable"))
    [[0; 0; 1]; [0; 1]]%nat [] None "self_confidence" "max" []
  = Raise (AssertionError methods_message).
Proof.
  apply (proj1 (unknown_sentence_method_rejected (T:=string)
                  (fun _ _ _ => Raise (ScorerError "unreachable"))
                  [[0; 0; 1]; [0; 1]]%nat [] None "self_confidence" "max" []));
    discriminate.
Defined.

(** ** The issue ranker *)

Local Open Scope nat_scope.

Lemma Qltb_lt x y : Qltb x y = true <-> (x < y)%Q.
Proof.
  unfold Qltb. rewrite Qlt_alt. destruct (Qcompare x y); intuition congruence.
Qed.

Lemma Qltb_ge x y : Qltb x y = false <-> (y <= x)%Q.
Proof.
  rewrite <- not_true_iff_false, Qltb_lt. split.
  - apply Qnot_lt_le.
  - apply Qle_not_lt.
Qed.

Section SortingFacts.
Context {A : Type}.
Variable key : A -> Q.

Lemma insert_perm x l : Permutation (insert key x l) (x :: l).
Proof.
  induction l as [|y l IH]; simpl; [reflexivity|].
  destruct (Qltb (key y) (key x)); [|reflexivity].
  rewrite IH. apply perm_swap.
Qed.

Lemma sorted_perm l : Permutation (sorted key l) l.
Proof.
  induction l as [|x l IH]; simpl; [reflexivity|].
  rewrite insert_perm. now constructor.
Qed.

Lemma insert_key_sorted x l :
  StronglySorted (key_le key) l -> StronglySorted (key_le key) (insert key x l).
Proof.
  induction 1 as [|y l Hs IH Hy]; simpl.
  - repeat constructor.
  - destruct (Qltb (key y) (key x)) eqn:Hlt.
    + constructor; [assumption|].
      eapply Permutation_Forall; [symmetry; apply insert_perm|].
      constructor; [|assumption].
      apply Qltb_lt in Hlt. now apply Qlt_le_weak.
    + apply Qltb_ge in Hlt.
      constructor; [now constructor|].
      constructor; [exact Hlt|].
      eapply Forall_impl; [|exact Hy].
      intros b Hb. unfold key_le in *. now apply Qle_trans with (key y).
Qed.

Lemma sorted_key_sorted l : StronglySorted (key_le key) (sorted key l).
Proof.
  induction l as [|x l IH]; simpl; [constructor|].
  now apply insert_key_sorted.
Qed.

(** Stability, in the form used below: a relation that holds from every
    element to every later one, and that holds whenever the first key is
    strictly smaller, still holds from earlier to later after sorting. *)
Variable rel : A -> A -> Prop.
Hypothesis rel_smaller_key : forall y x, (key y < key x)%Q -> rel y x.

Lemma insert_keeps_rel x l :
  Forall (rel x) l -> StronglySorted rel l -> StronglySorted rel (insert key x l).
Proof.
  intros Hx Hs; induction Hs as [|y l Hs IH Hy]; simpl.
  - repeat constructor.
  - inversion Hx as [|? ? Hxy Hxl]; subst.
    destruct (Qltb (key y) (key x)) eqn:Hlt.
    + constructor; [now apply IH|].
      eapply Permutation_Forall; [symmetry; apply insert_perm|].
      constructor; [|assumption].
      apply rel_smaller_key. now apply Qltb_lt.
    + constructor; [now constructor|assumption].
Qed.

Lemma sorted_keeps_rel l : StronglySorted rel l -> StronglySorted rel (sorted key l).
Proof.
  induction 1 as [|x l Hs IH Hx]; simpl; [constructor|].
  apply insert_keeps_rel; [|assumption].
  eapply Permutation_Forall; [symmetry; apply sorted_perm|assumption].
Qed.
End SortingFacts.

Lemma StronglySorted_app {A : Type} (R : A -> A -> Prop) (l1 l2 : list A) :
  StronglySorted R l1 -> StronglySorted R l2 ->
  (forall a b, In a l1 -> In b l2 -> R a b) ->
  StronglySorted R (l1 ++ l2).
Proof.
  induction 1 as [|a l1 Hs IH Ha]; simpl; intros H2 Hcross; [assumption|].
  constructor.
  - apply IH; auto.
  - apply Forall_app. split; [assumption|].
    apply Forall_forall. intros b Hb. apply Hcross; simpl; auto.
Qed.

Lemma StronglySorted_app_inv {A : Type} (R : A -> A -> Prop) (l1 l2 : list A) :
  StronglySorted R (l1 ++ l2) -> StronglySorted R l1 /\ StronglySorted R l2.
Proof.
  induction l1 as [|a l1 IH]; simpl; intros Hs.
  - split; [constructor|assumption].
  - apply StronglySorted_inv in Hs as (Hs & Ha).
    destruct (IH Hs) as (H1 & H2). split; [|assumption].
    constructor; [assumption|]. now apply Forall_app in Ha.
Qed.

Lemma StronglySorted_map {A B : Type} (f : A -> B) (R : B -> B -> Prop) l :
  StronglySorted (fun a b => R (f a) (f b)) l -> StronglySorted R (map f l).
Proof.
  induction 1 as [|a l Hs IH Ha]; simpl; constructor; [assumption|].
  apply Forall_map. exact Ha.
Qed.

Lemma StronglySorted_weaken {A : Type} (P : A -> Prop) (R R' : A -> A -> Prop) l :
  (forall a b, P a -> P b -> R a b -> R' a b) ->
  Forall P l -> StronglySorted R l -> StronglySorted R' l.
Proof.
  intros Himp Hp Hs; induction Hs as [|a l Hs IH Ha]; [constructor|].
  inversion Hp as [|? ? Hpa Hpl]; subst.
  constructor; [auto|].
  rewrite Forall_forall in *. intros b Hb. apply Himp; auto.
Qed.

(** *** Token mode: what the two loops collect *)

Lemma scan_sentence_from threshold i j scores acc :
  fold_left
    (fun acc '(token_index, score) =>
       if Qltb score threshold then acc ++ [(i, token_index, score)] else acc)
    (combine (seq j (List.length scores)) scores) acc
  = acc ++ sentence_kept threshold i j scores.
Proof.
  revert j acc; induction scores as [|s scores IH]; intros j acc; simpl.
  - now rewrite app_nil_r.
  - rewrite IH. destruct (Qltb s threshold); simpl.
    + now rewrite <- app_assoc.
    + reflexivity.
Qed.

Lemma scan_token_scores_from threshold i token_scores acc :
  fold_left
    (fun acc '(sentence_index, scores) =>
       scan_sentence threshold sentence_index scores acc)
    (combine (seq i (List.length token_scores)) token_scores) acc
  = acc ++ tokens_kept threshold i token_scores.
Proof.
  revert i acc; induction token_scores as [|scores rest IH]; intros i acc; simpl.
  - now rewrite app_nil_r.
  - rewrite IH. unfold scan_sentence, enumerate.
    rewrite scan_sentence_from. now rewrite <- app_assoc.
Qed.

Lemma scan_token_scores_kept threshold token_scores :
  scan_token_scores threshold token_scores = tokens_kept threshold 0 token_scores.
Proof. unfold scan_token_scores, enumerate. now rewrite scan_token_scores_from. Qed.

Lemma In_sentence_kept threshold i j scores i' j' s :
  In (i', j', s) (sentence_kept threshold i j scores) <->
  i' = i /\ j <= j' /\ nth_error scores (j' - j) = Some s /\ (s < threshold)%Q.
Proof.
  revert j; induction scores as [|s0 scores IH]; intros j; simpl.
  - split; [tauto|]. intros (_ & _ & H & _). destruct (j' - j); discriminate.
  - rewrite in_app_iff, IH. split.
    + intros [H|(-> & Hj & Hn & Hlt)].
      * destruct (Qltb s0 threshold) eqn:Hs0; simpl in H; [|tauto].
        destruct H as [[= <- <- <-]|[]].
        rewrite Nat.sub_diag. apply Qltb_lt in Hs0. auto.
      * repeat split; [lia| |assumption].
        replace (j' - j) with (S (j' - S j)) by lia. exact Hn.
    + intros (-> & Hj & Hn & Hlt).
      destruct (Nat.eq_dec j' j) as [->|Hne].
      * left. rewrite Nat.sub_diag in Hn. injection Hn as ->.
        apply Qltb_lt in Hlt. rewrite Hlt. simpl. auto.
      * right. repeat split; [lia| |assumption].
        replace (j' - j) with (S (j' - S j)) in Hn by lia. exact Hn.
Qed.

Lemma In_tokens_kept threshold i token_scores i' j' s :
  In (i', j', s) (tokens_kept threshold i token_scores) <->
  i <= i' /\
  exists scores, nth_error token_scores (i' - i) = Some scores /\
                 nth_error scores j' = Some s /\ (s < threshold)%Q.
Proof.
  revert i; induction token_scores as [|scores rest IH]; intros i; simpl.
  - split; [tauto|]. intros (_ & sc & H & _). destruct (i' - i); discriminate.
  - rewrite in_app_iff, In_sentence_kept, IH, Nat.sub_0_r. split.
    + intros [(-> & _ & Hn & Hlt)|(Hi & sc & Hsc & Hn & Hlt)].
      * split; [lia|]. exists scores. rewrite Nat.sub_diag. auto.
      * split; [lia|]. exists sc.
        replace (i' - i) with (S (i' - S i)) by lia. auto.
    + intros (Hi & sc & Hsc & Hn & Hlt).
      destruct (Nat.eq_dec i' i) as [->|Hne].
      * left. rewrite Nat.sub_diag in Hsc. injection Hsc as ->.
        repeat split; [lia|assumption|assumption].
      * right. split; [lia|]. exists sc.
        replace (i' - i) with (S (i' - S i)) in Hsc by lia. auto.
Qed.

Lemma tokens_kept_score threshold token_scores :
  Forall (fun x => token_score token_scores (fst x) = Some (snd x))
    (tokens_kept threshold 0 token_scores).
Proof.
  apply Forall_forall. intros [[i j] s] Hin.
  apply In_tokens_kept in Hin as (_ & sc & Hsc & Hn & _).
  rewrite Nat.sub_0_r in Hsc. unfold token_score. simpl. now rewrite Hsc.
Qed.

Lemma sentence_kept_scan_order threshold i j scores :
  StronglySorted in_scan_order (sentence_kept threshold i j scores).
Proof.
  revert j; induction scores as [|s scores IH]; intros j; simpl; [constructor|].
  apply StronglySorted_app; [| apply IH |].
  - destruct (Qltb s threshold); repeat constructor.
  - intros [[i1 j1] s1] [[i2 j2] s2] H1 H2.
    destruct (Qltb s threshold); simpl in H1; [|tauto].
    destruct H1 as [[= <- <- <-]|[]].
    apply In_sentence_kept in H2 as (-> & Hj & _).
    right. simpl. lia.
Qed.

Lemma tokens_kept_scan_order threshold i token_scores :
  StronglySorted in_scan_order (tokens_kept threshold i token_scores).
Proof.
  revert i; induction token_scores as [|scores rest IH]; intros i; simpl;
    [constructor|].
  apply StronglySorted_app; [apply sentence_kept_scan_order | apply IH |].
  intros [[i1 j1] s1] [[i2 j2] s2] H1 H2.
  apply In_sentence_kept in H1 as (-> & _).
  apply In_tokens_kept in H2 as (Hi & _).
  left. simpl. lia.
Qed.

Lemma scan_before_irrefl p : ~ scan_before p p.
Proof. unfold scan_before. lia. Qed.

Lemma StronglySorted_NoDup {A : Type} (R : A -> A -> Prop) l :
  (forall a, ~ R a a) -> StronglySorted R l -> NoDup l.
Proof.
  intros Hirr; induction 1 as [|a l Hs IH Ha]; constructor; [|assumption].
  intros Hin. rewrite Forall_forall in Ha. exact (Hirr a (Ha a Hin)).
Qed.

Lemma tokens_kept_pairs_NoDup threshold token_scores :
  NoDup (map fst (tokens_kept threshold 0 token_scores)).
Proof.
  apply (StronglySorted_NoDup scan_before); [apply scan_before_irrefl|].
  apply StronglySorted_map. apply tokens_kept_scan_order.
Qed.

Lemma token_mode_result sentence_scores token_scores threshold :
  token_scores <> [] ->
  issues_from_scores sentence_scores (Some token_scores) threshold
  = Ok (TokenIssues
          (map fst (sorted snd (tokens_kept threshold 0 token_scores)))).
Proof.
  intros Hne. unfold issues_from_scores.
  destruct token_scores as [|scores rest]; [congruence|].
  cbn [truthy]. rewrite scan_token_scores_kept.
  do 2 f_equal. apply map_ext. intros [[i j] s]. reflexivity.
Qed.

(** C4: with a non-empty [token_scores], [issues_from_scores] returns index
    pairs only, each once; a pair is returned exactly when it denotes a
    token whose score is strictly below the threshold; and along the
    returned list the scores of the denoted tokens ascend. *)
Theorem token_issues_below_threshold (sentence_scores : list Q)
  (token_scores : list (list Q)) (threshold : Q) :
  token_scores <> [] ->
  exists pairs,
    issues_from_scores sentence_scores (Some token_scores) threshold
    = Ok (TokenIssues pairs) /\
    NoDup pairs /\
    (forall i j,
       In (i, j) pairs <->
       exists s, token_score token_scores (i, j) = Some s /\ (s < threshold)%Q) /\
    StronglySorted
      (fun p q => exists a b,
           token_score token_scores p = Some a /\
           token_score token_scores q = Some b /\ (a <= b)%Q)
      pairs.
Proof.
  intros Hne. eexists. split; [now apply token_mode_result|].
  set (kept := tokens_kept threshold 0 token_scores).
  assert (Hperm : Permutation (sorted snd kept) kept) by apply sorted_perm.
  split; [|split].
  - eapply Permutation_NoDup.
    + symmetry. apply Permutation_map. exact Hperm.
    + apply tokens_kept_pairs_NoDup.
  - intros i j. rewrite in_map_iff. split.
    + intros ([[i' j'] s] & [= -> ->] & Hin).
      apply (Permutation_in _ Hperm) in Hin.
      apply In_tokens_kept in Hin as (_ & sc & Hsc & Hn & Hlt).
      rewrite Nat.sub_0_r in Hsc.
      exists s. unfold token_score. simpl. rewrite Hsc. auto.
    + intros (s & Hs & Hlt). exists (i, j, s). split; [reflexivity|].
      apply (Permutation_in _ (Permutation_sym Hperm)).
      apply In_tokens_kept. split; [lia|].
      unfold token_score in Hs. simpl in Hs. rewrite Nat.sub_0_r.
      destruct (nth_error token_scores i) as [sc|]; [|discriminate].
      exists sc. auto.
  - apply StronglySorted_map.
    eapply (StronglySorted_weaken
              (fun x => token_score token_scores (fst x) = Some (snd x))
              (key_le snd)).
    + intros a b Ha Hb Hab. exists (snd a), (snd b). auto.
    + eapply Permutation_Forall; [symmetry; exact Hperm|].
      apply tokens_kept_score.
    + apply sorted_key_sorted.
Qed.

Lemma token_issues_below_threshold_witness :
  exists pairs,
    issues_from_scores [0.05; 0.0; 0.8]%Q
      (Some [[0.9; 0.05]; [0.0; 0.8; 0.8]; [0.8]]%Q) 0.1%Q
    = Ok (TokenIssues pairs) /\
    NoDup pairs /\
    (forall i j,
       In (i, j) pairs <->
       exists s,
         token_score [[0.9; 0.05]; [0.0; 0.8; 0.8]; [0.8]]%Q (i, j) = Some s /\
         (s < 0.1)%Q) /\
    StronglySorted
      (fun p q => exists a b,
           token_score [[0.9; 0.05]; [0.0; 0.8; 0.8]; [0.8]]%Q p = Some a /\
           token_score [[0.9; 0.05]; [0.0; 0.8; 0.8]; [0.8]]%Q q = Some b /\
           (a <= b)%Q)
      pairs.
Proof.
  apply (token_issues_below_threshold [0.05; 0.0; 0.8]%Q
           [[0.9; 0.05]; [0.0; 0.8; 0.8]; [0.8]]%Q 0.1%Q).
  discriminate.
Defined.

(** C10: with a non-empty [token_scores], whenever two returned pairs denote
    tokens of equal score, the one returned first is the one the scan meets
    first: smaller sentence index, or same sentence and smaller token
    index. *)
Theorem token_issues_ties_in_scan_order (sentence_scores : list Q)
  (token_scores : list (list Q)) (threshold : Q) :
  token_scores <> [] ->
  exists pairs,
    issues_from_scores sentence_scores (Some token_scores) threshold
    = Ok (TokenIssues pairs) /\
    StronglySorted
      (fun p q => forall a b,
           token_score token_scores p = Some a ->
           token_score token_scores q = Some b ->
           (a == b)%Q -> scan_before p q)
      pairs.
Proof.
  intros Hne. eexists. split; [now apply token_mode_result|].
  set (kept := tokens_kept threshold 0 token_scores).
  apply StronglySorted_map.
  eapply (StronglySorted_weaken
            (fun x => token_score token_scores (fst x) = Some (snd x))
            (fun x y => (snd x == snd y)%Q -> in_scan_order x y)).
  - intros x y Hx Hy Hrel a b Ha Hb Hab.
    rewrite Hx in Ha. rewrite Hy in Hb.
    injection Ha as <-. injection Hb as <-. now apply Hrel.
  - eapply Permutation_Forall; [symmetry; apply sorted_perm|].
    apply tokens_kept_score.
  - apply sorted_keeps_rel.
    + intros y x Hlt Heq. exfalso.
      rewrite Heq in Hlt. exact (Qlt_irrefl _ Hlt).
    + eapply StronglySorted_weaken with (P := fun _ => True);
        [ | apply Forall_forall; intros; exact I
          | apply tokens_kept_scan_order ].
      intros x y _ _ Hxy _. exact Hxy.
Qed.

Lemma token_issues_ties_in_scan_order_witness :
  exists pairs,
    issues_from_scores [] (Some [[0.05; 0.9]; [0.02; 0.05; 0.05]]%Q) 0.1%Q
    = Ok (TokenIssues pairs) /\
    StronglySorted
      (fun p q => forall a b,
           token_score [[0.05; 0.9]; [0.02; 0.05; 0.05]]%Q p = Some a ->
           token_score [[0.05; 0.9]; [0.02; 0.05; 0.05]]%Q q = Some b ->
           (a == b)%Q -> scan_before p q)
      pairs.
Proof.
  apply (token_issues_ties_in_scan_order []
           [[0.05; 0.9]; [0.02; 0.05; 0.05]]%Q 0.1%Q).
  discriminate.
Defined.

(** The docstring example of token mode, and a tie. *)
Example issues_from_scores_token_example :
  issues_from_scores
    [0.1; 0.3; 0.6; 0.2; 0.05; 0.9; 0.8; 0.0125; 0.5; 0.6]%Q
    (Some [[0.9; 0.6]; [0.0; 0.8; 0.8]; [0.8; 0.8]; [0.1; 0.02; 0.3; 0.4];
           [0.1; 0.2; 0.03; 0.4]; [0.1; 0.2; 0.3; 0.04]; [0.1; 0.2; 0.4];
           [0.3; 0.4]; [0.08; 0.2; 0.5; 0.4]; [0.1; 0.2; 0.3; 0.4]]%Q)
    default_threshold
  = Ok (TokenIssues [(1, 0); (3, 1); (4, 2); (5, 3); (8, 0)]).
Proof. reflexivity. Qed.

Example issues_from_scores_token_tie :
  issues_from_scores [] (Some [[0.05; 0.9]; [0.02; 0.05; 0.05]]%Q) 0.1%Q
  = Ok (TokenIssues [(1, 0); (0, 0); (1, 1); (1, 2)]).
Proof. reflexivity. Qed.

(** *** Sentence mode: the ranking and the loop *)

Lemma ranking_cutoff_step sentence_scores ranking threshold cutoff :
  ranking_cutoff sentence_scores ranking threshold cutoff =
  match nth_error ranking cutoff with
  | None => Raise IndexError
  | Some r =>
      score <- getitem sentence_scores r ;;
      if Qltb score threshold && (cutoff <? List.length ranking)
      then ranking_cutoff sentence_scores ranking threshold (S cutoff)
      else Ok cutoff
  end.
Proof.
  rewrite ranking_cutoff_equation_1.
  destruct (inspect (nth_error ranking cutoff)) as [[r|] Hr]; cbn; rewrite Hr;
    reflexivity.
Qed.

(** The walk runs off the end of the ranking when every remaining index is
    below the threshold. *)
Lemma ranking_cutoff_exhausts sentence_scores threshold seen rest :
  Forall (below sentence_scores threshold) rest ->
  ranking_cutoff sentence_scores (seen ++ rest) threshold (List.length seen)
  = Raise IndexError.
Proof.
  revert seen; induction rest as [|r rest IH]; intros seen Hall.
  - rewrite ranking_cutoff_step, app_nil_r.
    now rewrite (proj2 (nth_error_None seen (List.length seen))) by lia.
  - inversion Hall as [|? ? (s & Hs & Hlt) Hrest]; subst.
    rewrite ranking_cutoff_step, nth_error_app2, Nat.sub_diag by lia. simpl.
    unfold getitem. rewrite Hs. simpl.
    apply Qltb_lt in Hlt. rewrite Hlt.
    rewrite (proj2 (Nat.ltb_lt _ _)) by (rewrite length_app; simpl; lia).
    simpl. specialize (IH (seen ++ [r]) Hrest).
    rewrite <- app_assoc, length_app in IH. simpl in IH.
    now rewrite Nat.add_1_r in IH.
Qed.

(** It stops at the first index whose score is not below the threshold. *)
Lemma ranking_cutoff_stops sentence_scores threshold seen pre r post s :
  Forall (below sentence_scores threshold) pre ->
  nth_error sentence_scores r = Some s -> (threshold <= s)%Q ->
  ranking_cutoff sentence_scores (seen ++ pre ++ r :: post) threshold
    (List.length seen)
  = Ok (List.length seen + List.length pre).
Proof.
  intros Hall Hr Hge. revert seen; induction pre as [|a pre IH]; intros seen.
  - rewrite ranking_cutoff_step, nth_error_app2, Nat.sub_diag by lia. simpl.
    unfold getitem. rewrite Hr. simpl.
    apply Qltb_ge in Hge. rewrite Hge. simpl. f_equal. lia.
  - inversion Hall as [|? ? (sa & Hsa & Hlt) Hpre]; subst.
    rewrite ranking_cutoff_step, nth_error_app2, Nat.sub_diag by lia. simpl.
    unfold getitem. rewrite Hsa. simpl.
    apply Qltb_lt in Hlt. rewrite Hlt.
    rewrite (proj2 (Nat.ltb_lt _ _)) by (rewrite length_app; simpl; lia).
    simpl. specialize (IH Hpre (seen ++ [a])).
    rewrite <- app_assoc, length_app in IH. simpl in IH.
    rewrite Nat.add_1_r in IH. rewrite IH. f_equal. lia.
Qed.

Lemma In_enumerate_from {A : Type} (l : list A) k i x :
  In (i, x) (combine (seq k (List.length l)) l) <->
  k <= i /\ nth_error l (i - k) = Some x.
Proof.
  revert k; induction l as [|a l IH]; intros k; simpl.
  - split; [tauto|]. intros (_ & H). destruct (i - k); discriminate.
  - rewrite IH. split.
    + intros [[= <- <-]|(Hk & Hn)].
      * rewrite Nat.sub_diag. auto.
      * split; [lia|]. replace (i - k) with (S (i - S k)) by lia. exact Hn.
    + intros (Hk & Hn). destruct (Nat.eq_dec i k) as [->|Hne].
      * rewrite Nat.sub_diag in Hn. injection Hn as ->. auto.
      * right. split; [lia|].
        replace (i - k) with (S (i - S k)) in Hn by lia. exact Hn.
Qed.

Lemma In_enumerate {A : Type} (l : list A) i x :
  In (i, x) (enumerate l) <-> nth_error l i = Some x.
Proof.
  unfold enumerate. rewrite In_enumerate_from, Nat.sub_0_r.
  intuition lia.
Qed.

Lemma enumerate_indices {A : Type} (l : list A) :
  map fst (enumerate l) = seq 0 (List.length l).
Proof.
  unfold enumerate. generalize 0.
  induction l as [|a l IH]; intros k; simpl; [reflexivity|].
  now rewrite IH.
Qed.

Lemma argsort_perm scores :
  Permutation (argsort scores) (seq 0 (List.length scores)).
Proof.
  unfold argsort. rewrite <- enumerate_indices.
  apply Permutation_map. apply sorted_perm.
Qed.

Lemma split_at_first_false {A : Type} (f : A -> bool) (l : list A) :
  (exists x, In x l /\ f x = false) ->
  exists pre x post,
    l = pre ++ x :: post /\ Forall (fun a => f a = true) pre /\ f x = false.
Proof.
  induction l as [|a l IH]; intros (x & Hin & Hx); [contradiction|].
  destruct (f a) eqn:Hfa.
  - destruct IH as (pre & y & post & -> & Hpre & Hy).
    { destruct Hin as [->|Hin]; [congruence|eauto]. }
    exists (a :: pre), y, post. repeat split; auto.
  - exists [], a, l. repeat split; auto.
Qed.

Lemma sorted_enumerate_scores scores :
  Forall (fun x => nth_error scores (fst x) = Some (snd x))
    (sorted snd (enumerate scores)).
Proof.
  eapply Permutation_Forall; [symmetry; apply sorted_perm|].
  apply Forall_forall. intros [i s] Hin. now apply In_enumerate.
Qed.

(** Sentence mode fails whenever no sentence reaches the threshold, the
    empty dataset included. *)
Lemma sentence_mode_exhausted sentence_scores threshold :
  (forall s, In s sentence_scores -> (s < threshold)%Q) ->
  issues_from_scores sentence_scores None threshold = Raise IndexError.
Proof.
  intros Hall. unfold issues_from_scores, sentence_issues. cbn [truthy].
  assert (Hwalk : Forall (below sentence_scores threshold) (argsort sentence_scores)).
  2:{ apply (ranking_cutoff_exhausts sentence_scores threshold []) in Hwalk.
      simpl in Hwalk. now rewrite Hwalk. }
  unfold argsort. apply Forall_map.
  eapply Forall_impl; [|apply sorted_enumerate_scores].
  intros [i s] Hs. simpl in *. exists s. split; [assumption|].
  apply Hall. eapply nth_error_In; eauto.
Qed.

(** When some sentence reaches the threshold, sentence mode returns each
    index of a sentence strictly below it once, and no other, by ascending
    score. *)
Lemma sentence_mode_exact sentence_scores threshold :
  (exists s, In s sentence_scores /\ (threshold <= s)%Q) ->
  exists indices,
    issues_from_scores sentence_scores None threshold
    = Ok (SentenceIssues indices) /\
    NoDup indices /\
    (forall i, In i indices <-> below sentence_scores threshold i) /\
    StronglySorted
      (fun i j => exists a b,
           nth_error sentence_scores i = Some a /\
           nth_error sentence_scores j = Some b /\ (a <= b)%Q)
      indices.
Proof.
  intros (s0 & Hin0 & Hge0).
  set (ranked := sorted snd (enumerate sentence_scores)).
  assert (Hscore : Forall (fun x => nth_error sentence_scores (fst x) = Some (snd x))
                     ranked) by apply sorted_enumerate_scores.
  assert (Hsorted : StronglySorted (key_le snd) ranked) by apply sorted_key_sorted.
  assert (Hperm : Permutation ranked (enumerate sentence_scores))
    by apply sorted_perm.
  destruct (split_at_first_false (fun x => Qltb (snd x) threshold) ranked)
    as (pre & [r s] & post & Hsplit & Hpre & Hr).
  { apply In_nth_error in Hin0 as (i0 & Hi0).
    exists (i0, s0). split; [|now apply Qltb_ge].
    apply (Permutation_in _ (Permutation_sym Hperm)). now apply In_enumerate. }
  simpl in Hr. apply Qltb_ge in Hr.
  assert (Hpre_below : Forall (below sentence_scores threshold) (map fst pre)).
  { apply Forall_map. rewrite Hsplit in Hscore.
    apply Forall_app in Hscore as (Hscore & _).
    rewrite Forall_forall in *. intros x Hx. exists (snd x).
    split; [now apply Hscore|]. apply Qltb_lt. now apply Hpre. }
  assert (Hr_score : nth_error sentence_scores r = Some s).
  { rewrite Hsplit in Hscore. apply Forall_app in Hscore as (_ & Hscore).
    now inversion Hscore. }
  assert (Hrank : argsort sentence_scores = map fst pre ++ r :: map fst post).
  { unfold argsort. fold ranked. rewrite Hsplit, map_app. reflexivity. }
  exists (map fst pre). split; [|split; [|split]].
  - unfold issues_from_scores, sentence_issues. cbn [truthy].
    rewrite Hrank.
    pose proof (ranking_cutoff_stops sentence_scores threshold [] (map fst pre) r
                  (map fst post) s Hpre_below Hr_score Hr) as Hwalk.
    simpl in Hwalk. rewrite Hwalk.
    simpl. rewrite firstn_app, firstn_all, Nat.sub_diag, firstn_O, app_nil_r.
    reflexivity.
  - assert (Hnd : NoDup (argsort sentence_scores)).
    { eapply Permutation_NoDup; [symmetry; apply argsort_perm|apply seq_NoDup]. }
    rewrite Hrank in Hnd. now apply NoDup_app_remove_r in Hnd.
  - intros i. split.
    + intros Hi. rewrite Forall_forall in Hpre_below. now apply Hpre_below.
    + intros (si & Hs & Hlt).
      assert (Hin : In (i, si) ranked).
      { apply (Permutation_in _ (Permutation_sym Hperm)). now apply In_enumerate. }
      rewrite Hsplit in Hin. apply in_app_or in Hin as [Hin|Hin].
      * apply in_map_iff. now exists (i, si).
      * exfalso. rewrite Hsplit in Hsorted.
        apply StronglySorted_app_inv in Hsorted as (_ & Hsorted).
        destruct Hin as [[= -> ->]|Hin].
        -- exact (Qlt_irrefl _ (Qlt_le_trans _ _ _ Hlt Hr)).
        -- apply StronglySorted_inv in Hsorted as (_ & Hall).
           rewrite Forall_forall in Hall. specialize (Hall _ Hin).
           unfold key_le in Hall. simpl in Hall.
           exact (Qlt_irrefl _ (Qlt_le_trans _ _ _ Hlt (Qle_trans _ _ _ Hr Hall))).
  - apply StronglySorted_map.
    rewrite Hsplit in Hsorted, Hscore.
    apply StronglySorted_app_inv in Hsorted as (Hsorted & _).
    apply Forall_app in Hscore as (Hscore & _).
    eapply (StronglySorted_weaken _ (key_le snd)); [|exact Hscore|exact Hsorted].
    intros a b Ha Hb Hab. exists (snd a), (snd b). auto.
Qed.

(** C1, at the input where the claim and the code part: one sentence, below
    the default threshold.  The loop indexes the ranking at its length
    before it tests [cutoff < len(ranking)], and the call raises. *)
Theorem sentence_mode_all_below_raises :
  issues_from_scores [0.05]%Q None default_threshold = Raise IndexError.
Proof. reflexivity. Qed.

(** The docstring examples of sentence mode. *)
Example issues_from_scores_sentence_example :
  issues_from_scores
    [0.1; 0.3; 0.6; 0.2; 0.05; 0.9; 0.8; 0.0125; 0.5; 0.6]%Q None
    default_threshold
  = Ok (SentenceIssues [7; 4]).
Proof. reflexivity. Qed.

Example issues_from_scores_sentence_example_half :
  issues_from_scores
    [0.1; 0.3; 0.6; 0.2; 0.05; 0.9; 0.8; 0.0125; 0.5; 0.6]%Q None 0.5%Q
  = Ok (SentenceIssues [7; 4; 0; 3; 1]).
Proof. reflexivity. Qed.

(** ** Sentence aggregation *)

Local Open Scope R_scope.

Lemma fold_left_Rmin_spec rest a :
  let m := fold_left Rmin rest a in
  (m = a \/ In m rest) /\ m <= a /\ forall x, In x rest -> m <= x.
Proof.
  revert a; induction rest as [|b rest IH]; intros a; simpl.
  - repeat split; auto; try lra. intros x [].
  - destruct (IH (Rmin a b)) as (Hin & Hle & Hall).
    repeat split.
    + destruct Hin as [Heq|Hin]; [|auto].
      rewrite Heq. unfold Rmin. destruct (Rle_dec a b); auto.
    + pose proof (Rmin_l a b). lra.
    + intros x [<-|Hx]; [|auto].
      pose proof (Rmin_r a b). lra.
Qed.

Lemma np_min_is_minimum scores :
  (1 <= List.length scores)%nat ->
  exists m, np_min scores = Ok m /\ is_minimum scores m.
Proof.
  destruct scores as [|a rest]; simpl; [lia|]. intros _.
  destruct (fold_left_Rmin_spec rest a) as (Hin & Hle & Hall).
  eexists. split; [reflexivity|]. split.
  - simpl. destruct Hin as [->|Hin]; auto.
  - intros s [<-|Hs]; auto.
Qed.

Lemma np_mean_is_mean scores :
  (1 <= List.length scores)%nat -> is_mean scores (np_mean scores).
Proof.
  intros Hn. unfold is_mean, np_mean, np_sum. field.
  apply not_0_INR. lia.
Qed.

(** C5: on sentences with at least one token score each, temperature 0
    yields for every sentence the least of its token scores, and
    temperature +infinity yields for every sentence their arithmetic
    mean. *)
Theorem softmin_degenerate_temperatures (token_scores : list (list R)) :
  Forall (fun scores => 1 <= List.length scores)%nat token_scores ->
  (exists mins,
     _softmin_sentence_score token_scores (Finite 0) = Ok mins /\
     Forall2 is_minimum token_scores mins) /\
  (exists means,
     _softmin_sentence_score token_scores PosInf = Ok means /\
     Forall2 is_mean token_scores means).
Proof.
  intros Hne. split.
  - unfold _softmin_sentence_score.
    destruct (Req_dec_T 0 0) as [_|Hneq]; [|now contradiction Hneq].
    induction Hne as [|scores rest Hs _ (mins & Hrun & Hmins)]; simpl.
    + exists []. split; [reflexivity|constructor].
    + destruct (np_min_is_minimum scores Hs) as (m & -> & Hm). simpl.
      rewrite Hrun. simpl. exists (m :: mins). split; [reflexivity|].
      now constructor.
  - exists (map np_mean token_scores). split; [reflexivity|].
    induction Hne as [|scores rest Hs _ IH]; simpl; constructor;
      [now apply np_mean_is_mean | assumption].
Qed.

Lemma softmin_degenerate_temperatures_witness :
  (exists mins,
     _softmin_sentence_score [[0.9; 0.6]; [0; 0.8; 0.8]; [0.8]] (Finite 0)
     = Ok mins /\
     Forall2 is_minimum [[0.9; 0.6]; [0; 0.8; 0.8]; [0.8]] mins) /\
  (exists means,
     _softmin_sentence_score [[0.9; 0.6]; [0; 0.8; 0.8]; [0.8]] PosInf
     = Ok means /\
     Forall2 is_mean [[0.9; 0.6]; [0; 0.8; 0.8]; [0.8]] means).
Proof.
  apply (softmin_degenerate_temperatures [[0.9; 0.6]; [0; 0.8; 0.8]; [0.8]]).
  repeat constructor.
Defined.

(** *** Binary64: overflow of the exponential *)

(** C7, at an input where the claim and the code part: one sentence with
    the single token score 0, at temperature 0.001.  The argument of
    [np.exp] is 1000, the exponential overflows to infinity, the softmax
    weight is infinity / infinity, and the sentence score is [nan], which
    is neither at least nor at most the token score. *)
Theorem softmin_small_temperature_is_nan (np_exp : float -> float) :
  overflows_to_infinity np_exp ->
  Binary64._softmin_sentence_score np_exp [[0%float]] 0.001%float
  = Ok [nan] /\
  (0 <=? nan)%float = false /\ (nan <=? 0)%float = false.
Proof.
  intros Hexp. split; [|split; reflexivity].
  assert (Harg : ((1 - 0) / 0.001)%float = 1000%float) by reflexivity.
  cbv [Binary64._softmin_sentence_score Binary64.softmin_fun Binary64.softmax
       Binary64.np_dot Binary64.np_sum map combine fold_left].
  rewrite Harg, (Hexp 1000%float eq_refl). reflexivity.
Qed.

Lemma softmin_small_temperature_is_nan_witness :
  Binary64._softmin_sentence_score
    (fun x => if (710 <=? x)%float then infinity else 1%float)
    [[0%float]] 0.001%float
  = Ok [nan] /\
  (0 <=? nan)%float = false /\ (nan <=? 0)%float = false.
Proof.
  apply (softmin_small_temperature_is_nan
           (fun x => if (710 <=? x)%float then infinity else 1%float)).
  intros x Hx. rewrite Hx. reflexivity.
Defined.

(** *** Numerical bounds on the exponential

    [1 + x <= exp x <= 1 / (1 - x)] at [x = 1/2048], squared up to the
    arguments the documented example needs, with outward rounding. *)





(** *** The softmin score and its documented wording *)





(** * Further properties of the ranker *)

Local Open Scope nat_scope.

Lemma scores_all_below_or_not (sentence_scores : list Q) (threshold : Q) :
  (forall s, In s sentence_scores -> (s < threshold)%Q) \/
  (exists s, In s sentence_scores /\ (threshold <= s)%Q).
Proof.
  induction sentence_scores as [|a l [IH|(s & Hin & Hs)]].
  - left. intros s [].
  - destruct (Qlt_le_dec a threshold) as [Hlt|Hge].
    + left. intros s [<-|Hs]; auto.
    + right. exists a. split; [now left|assumption].
  - right. exists s. split; [now right|assumption].
Qed.


Lemma sentence_mode_success sentence_scores threshold indices :
  issues_from_scores sentence_scores None threshold = Ok (SentenceIssues indices) ->
  NoDup indices /\
  (forall i, In i indices <-> below sentence_scores threshold i) /\
  exists cutoff, indices = firstn cutoff (argsort sentence_scores).
Proof.
  intros Hrun.
  destruct (scores_all_below_or_not sentence_scores threshold) as [Hall|Hex].
  - rewrite sentence_mode_exhausted in Hrun by assumption. discriminate.
  - destruct (sentence_mode_exact sentence_scores threshold Hex)
      as (l & Hl & Hnd & Hin & _).
    rewrite Hl in Hrun. injection Hrun as ->.
    split; [assumption|]. split; [assumption|].
    unfold issues_from_scores, sentence_issues in Hl. cbn [truthy] in Hl.
    destruct (ranking_cutoff _ _ _ _) as [c|e]; simpl in Hl; [|discriminate].
    exists c. congruence.
Qed.

Lemma firstn_prefix_of_longer {A : Type} (l : list A) c1 c2 :
  List.length (firstn c1 l) <= List.length (firstn c2 l) ->
  exists rest, firstn c2 l = firstn c1 l ++ rest.
Proof.
  rewrite !length_firstn. intros Hlen.
  exists (skipn (Nat.min c1 (List.length l)) (firstn c2 l)).
  rewrite <- (firstn_skipn (Nat.min c1 (List.length l)) (firstn c2 l)) at 1.
  f_equal. rewrite firstn_firstn.
  replace (Nat.min (Nat.min c1 (List.length l)) c2)
    with (Nat.min c1 (List.length l)) by lia.
  destruct (Nat.le_ge_cases c1 (List.length l)).
  - now rewrite Nat.min_l.
  - rewrite Nat.min_r by assumption. now rewrite !firstn_all2.
Qed.

(** Sentence mode: when the calls at two thresholds both return, the
    result at the lower threshold is an initial segment of the result at
    the higher one. *)
Theorem sentence_issues_grow_with_threshold (sentence_scores : list Q)
  (t1 t2 : Q) (l1 l2 : list nat) :
  (t1 <= t2)%Q ->
  issues_from_scores sentence_scores None t1 = Ok (SentenceIssues l1) ->
  issues_from_scores sentence_scores None t2 = Ok (SentenceIssues l2) ->
  exists rest, l2 = l1 ++ rest.
Proof.
  intros Hle H1 H2.
  apply sentence_mode_success in H1 as (Hnd1 & Hin1 & c1 & ->).
  apply sentence_mode_success in H2 as (_ & Hin2 & c2 & ->).
  apply firstn_prefix_of_longer.
  apply NoDup_incl_length; [assumption|].
  intros i Hi. apply Hin2. apply Hin1 in Hi as (s & Hs & Hlt).
  exists s. split; [assumption|]. now apply Qlt_le_trans with t1.
Qed.

Lemma sentence_issues_grow_with_threshold_witness :
  exists rest, [7; 4; 0; 3; 1] = [7; 4] ++ rest.
Proof.
  apply (sentence_issues_grow_with_threshold
           [0.1; 0.3; 0.6; 0.2; 0.05; 0.9; 0.8; 0.0125; 0.5; 0.6]%Q
           0.1%Q 0.5%Q [7; 4] [7; 4; 0; 3; 1]).
  - discriminate.
  - reflexivity.
  - reflexivity.
Defined.

(** *** Token mode under a growing threshold *)

Section FilterSorted.
Context {A : Type}.
Variable key : A -> Q.
Variable p : A -> bool.

Lemma insert_at_front x l :
  Forall (fun z => (key x <= key z)%Q) l -> insert key x l = x :: l.
Proof.
  destruct l as [|y l]; [reflexivity|]. intros Hall. simpl.
  inversion Hall as [|? ? Hy _]; subst.
  now rewrite (proj2 (Qltb_ge _ _) Hy).
Qed.

Lemma filter_insert x l :
  StronglySorted (key_le key) l ->
  filter p (insert key x l)
  = if p x then insert key x (filter p l) else filter p l.
Proof.
  induction 1 as [|y l Hs IH Hy]; simpl.
  - destruct (p x); reflexivity.
  - destruct (Qltb (key y) (key x)) eqn:Hlt; simpl.
    + rewrite IH. destruct (p y), (p x); simpl; try reflexivity.
      now rewrite Hlt.
    + destruct (p x); [|reflexivity].
      apply Qltb_ge in Hlt. symmetry. apply insert_at_front.
      assert (Hall : Forall (fun z => (key x <= key z)%Q) (y :: l)).
      { constructor; [assumption|].
        eapply Forall_impl; [|exact Hy].
        intros z Hz. unfold key_le in Hz. now apply Qle_trans with (key y). }
      apply Forall_forall. intros z Hz.
      apply (filter_In p z (y :: l)) in Hz as (Hz & _).
      rewrite Forall_forall in Hall. now apply Hall.
Qed.

Lemma sorted_filter l : sorted key (filter p l) = filter p (sorted key l).
Proof.
  induction l as [|x l IH]; simpl; [reflexivity|].
  rewrite filter_insert by apply sorted_key_sorted.
  destruct (p x); simpl; now rewrite IH.
Qed.
End FilterSorted.

Lemma filter_below_is_prefix {A : Type} (key : A -> Q) (t : Q) (l : list A) :
  StronglySorted (key_le key) l ->
  exists rest, l = filter (fun x => Qltb (key x) t) l ++ rest.
Proof.
  induction 1 as [|y l Hs (rest & IH) Hy]; simpl.
  - now exists [].
  - destruct (Qltb (key y) t) eqn:Hlt.
    + exists rest. simpl. now rewrite <- IH.
    + exists (y :: l). apply Qltb_ge in Hlt.
      replace (filter (fun x => Qltb (key x) t) l) with (@nil A); [reflexivity|].
      symmetry. clear Hs IH.
      induction Hy as [|z l' Hz Hy' IHl]; simpl; [reflexivity|].
      unfold key_le in Hz.
      rewrite (proj2 (Qltb_ge (key z) t)) by (now apply Qle_trans with (key y)).
      exact IHl.
Qed.

Lemma Qltb_weaken s t1 t2 : (t1 <= t2)%Q -> Qltb s t1 = true -> Qltb s t2 = true.
Proof.
  intros Hle Hlt. apply Qltb_lt. apply Qltb_lt in Hlt.
  now apply Qlt_le_trans with t1.
Qed.

Lemma sentence_kept_filter t1 t2 i j scores :
  (t1 <= t2)%Q ->
  sentence_kept t1 i j scores
  = filter (fun x : issue_triple => Qltb (snd x) t1) (sentence_kept t2 i j scores).
Proof.
  intros Hle. revert j; induction scores as [|s scores IH]; intros j; simpl;
    [reflexivity|].
  rewrite filter_app, <- IH.
  destruct (Qltb s t1) eqn:H1.
  - rewrite (Qltb_weaken s t1 t2 Hle H1). simpl. now rewrite H1.
  - destruct (Qltb s t2); simpl; [now rewrite H1|reflexivity].
Qed.

Lemma tokens_kept_filter t1 t2 i token_scores :
  (t1 <= t2)%Q ->
  tokens_kept t1 i token_scores
  = filter (fun x : issue_triple => Qltb (snd x) t1) (tokens_kept t2 i token_scores).
Proof.
  intros Hle. revert i; induction token_scores as [|scores rest IH]; intros i;
    simpl; [reflexivity|].
  now rewrite filter_app, <- IH, <- sentence_kept_filter.
Qed.

(** Token mode: raising the threshold only appends to the returned list;
    the pairs returned at the lower threshold stay at the front, in the
    same order. *)
Theorem token_issues_grow_with_threshold (sentence_scores : list Q)
  (token_scores : list (list Q)) (t1 t2 : Q) :
  token_scores <> [] -> (t1 <= t2)%Q ->
  exists pairs rest,
    issues_from_scores sentence_scores (Some token_scores) t1
    = Ok (TokenIssues pairs) /\
    issues_from_scores sentence_scores (Some token_scores) t2
    = Ok (TokenIssues (pairs ++ rest)).
Proof.
  intros Hne Hle. rewrite !token_mode_result by assumption.
  rewrite (tokens_kept_filter t1 t2) by assumption.
  rewrite sorted_filter.
  destruct (filter_below_is_prefix snd t1
              (sorted snd (tokens_kept t2 0 token_scores)))
    as (rest & Hrest); [apply sorted_key_sorted|].
  eexists. exists (map fst rest). split; [reflexivity|].
  rewrite <- map_app. do 3 f_equal. exact Hrest.
Qed.

Lemma token_issues_grow_with_threshold_witness :
  exists pairs rest,
    issues_from_scores [] (Some [[0.05; 0.9]; [0.02; 0.3; 0.05]]%Q) 0.05%Q
    = Ok (TokenIssues pairs) /\
    issues_from_scores [] (Some [[0.05; 0.9]; [0.02; 0.3; 0.05]]%Q) 0.5%Q
    = Ok (TokenIssues (pairs ++ rest)).
Proof.
  apply (token_issues_grow_with_threshold []
           [[0.05; 0.9]; [0.02; 0.3; 0.05]]%Q 0.05%Q 0.5%Q);
    discriminate.
Defined.

(** *** The two modes on the same data *)

Lemma Forall2_nth_error_left {A B : Type} (R : A -> B -> Prop) l1 l2 i a :
  Forall2 R l1 l2 -> nth_error l1 i = Some a ->
  exists b, nth_error l2 i = Some b /\ R a b.
Proof.
  intros H; revert i; induction H as [|x y l1 l2 Hxy _ IH]; intros [|i] Hi;
    simpl in *; try discriminate.
  - injection Hi as <-. eauto.
  - now apply IH.
Qed.

Lemma Forall2_nth_error_right {A B : Type} (R : A -> B -> Prop) l1 l2 i b :
  Forall2 R l1 l2 -> nth_error l2 i = Some b ->
  exists a, nth_error l1 i = Some a /\ R a b.
Proof.
  intros H; revert i; induction H as [|x y l1 l2 Hxy _ IH]; intros [|i] Hi;
    simpl in *; try discriminate.
  - injection Hi as <-. eauto.
  - now apply IH.
Qed.

Lemma token_mode_membership sentence_scores token_scores threshold :
  token_scores <> [] ->
  exists pairs,
    issues_from_scores sentence_scores (Some token_scores) threshold
    = Ok (TokenIssues pairs) /\
    forall i j,
      In (i, j) pairs <->
      exists s, token_score token_scores (i, j) = Some s /\ (s < threshold)%Q.
Proof.
  intros Hne. eexists. split; [now apply token_mode_result|].
  set (kept := tokens_kept threshold 0 token_scores).
  assert (Hperm : Permutation (sorted snd kept) kept) by apply sorted_perm.
  intros i j. rewrite in_map_iff. split.
  - intros ([[i' j'] s] & [= -> ->] & Hin).
    apply (Permutation_in _ Hperm) in Hin.
    apply In_tokens_kept in Hin as (_ & sc & Hsc & Hn & Hlt).
    rewrite Nat.sub_0_r in Hsc.
    exists s. unfold token_score. simpl. rewrite Hsc. auto.
  - intros (s & Hs & Hlt). exists (i, j, s). split; [reflexivity|].
    apply (Permutation_in _ (Permutation_sym Hperm)).
    apply In_tokens_kept. split; [lia|].
    unfold token_score in Hs. simpl in Hs. rewrite Nat.sub_0_r.
    destruct (nth_error token_scores i) as [sc|]; [|discriminate].
    exists sc. auto.
Qed.

(** When every sentence score is the least token score of its sentence (as
    the "min" aggregation produces them) and sentence mode returns, it
    returns exactly the sentences in which token mode, at the same
    threshold, reports at least one token. *)
Theorem modes_agree_on_minima (sentence_scores : list Q)
  (token_scores : list (list Q)) (threshold : Q) (indices : list nat) :
  token_scores <> [] ->
  Forall2 least_score token_scores sentence_scores ->
  issues_from_scores sentence_scores None threshold
  = Ok (SentenceIssues indices) ->
  exists pairs,
    issues_from_scores sentence_scores (Some token_scores) threshold
    = Ok (TokenIssues pairs) /\
    forall i, In i indices <-> exists j, In (i, j) pairs.
Proof.
  intros Hne Hmin Hrun.
  apply sentence_mode_success in Hrun as (_ & Hin & _).
  destruct (token_mode_membership sentence_scores token_scores threshold Hne)
    as (pairs & Hpairs & Hmem).
  exists pairs. split; [assumption|]. intros i. rewrite Hin. split.
  - intros (m & Hm & Hlt).
    destruct (Forall2_nth_error_right _ _ _ _ _ Hmin Hm)
      as (row & Hrow & (s & Hs & Heq) & _).
    apply In_nth_error in Hs as (j & Hj). exists j. apply Hmem.
    exists s. unfold token_score. simpl. rewrite Hrow.
    split; [assumption|]. now rewrite Heq.
  - intros (j & Hj). apply Hmem in Hj as (s & Hs & Hlt).
    unfold token_score in Hs. simpl in Hs.
    destruct (nth_error token_scores i) as [row|] eqn:Hrow; [|discriminate].
    destruct (Forall2_nth_error_left _ _ _ _ _ Hmin Hrow)
      as (m & Hm & _ & Hleast).
    exists m. split; [assumption|].
    apply Qle_lt_trans with s; [|assumption].
    apply Hleast. eapply nth_error_In; eauto.
Qed.

Lemma modes_agree_on_minima_witness :
  exists pairs,
    issues_from_scores [0.05; 0.3; 0.02]%Q
      (Some [[0.05; 0.9]; [0.3]; [0.02; 0.3; 0.05]]%Q) 0.1%Q
    = Ok (TokenIssues pairs) /\
    forall i, In i [2; 0] <-> exists j, In (i, j) pairs.
Proof.
  apply (modes_agree_on_minima [0.05; 0.3; 0.02]%Q
           [[0.05; 0.9]; [0.3]; [0.02; 0.3; 0.05]]%Q 0.1%Q [2; 0]).
  - discriminate.
  - repeat (apply Forall2_cons; [split|]); try apply Forall2_nil;
      solve [ eexists; split; [left; reflexivity | reflexivity]
            | intros s Hs; simpl in Hs;
              repeat (destruct Hs as [<-|Hs]; [discriminate|]); contradiction ].
  - reflexivity.
Defined.

(** * Further properties of the sentence aggregation *)

Local Open Scope R_scope.

(** *** Sentences without tokens *)

Lemma mapM_np_min_empty (token_scores : list (list R)) :
  mapM np_min token_scores = Raise ValueError <-> In [] token_scores.
Proof.
  split.
  - intros H. apply mapM_raise in H as (s & Hin & Hs).
    destruct s; [assumption|discriminate].
  - induction token_scores as [|s l IH]; intros Hin; [contradiction|].
    simpl. destruct s as [|a r]; [reflexivity|]. simpl.
    destruct Hin as [Heq|Hin]; [discriminate|].
    now rewrite (IH Hin).
Qed.

(** A sentence without token scores: at temperature 0 the call raises
    [ValueError] exactly when there is one; at any other finite temperature
    nothing is raised and such a sentence is scored 0. *)
Theorem softmin_empty_sentence (token_scores : list (list R)) :
  (_softmin_sentence_score token_scores (Finite 0) = Raise ValueError
   <-> In [] token_scores) /\
  (forall t, t <> 0 ->
     exists sentence_scores,
       _softmin_sentence_score token_scores (Finite t) = Ok sentence_scores /\
       List.length sentence_scores = List.length token_scores /\
       forall i, nth_error token_scores i = Some [] ->
                 nth_error sentence_scores i = Some 0).
Proof.
  split.
  - unfold _softmin_sentence_score.
    destruct (Req_dec_T 0 0) as [_|Hneq]; [|now contradiction Hneq].
    apply mapM_np_min_empty.
  - intros t Ht. unfold _softmin_sentence_score.
    destruct (Req_dec_T t 0) as [Heq|_]; [contradiction|].
    eexists. split; [reflexivity|]. split; [apply length_map|].
    intros i Hi. rewrite nth_error_map, Hi. reflexivity.
Qed.

Lemma softmin_empty_sentence_witness :
  exists sentence_scores,
    _softmin_sentence_score [[]; [0.8]] (Finite 0.05) = Ok sentence_scores /\
    List.length sentence_scores = 2%nat /\
    forall i, nth_error [[]; [0.8]] i = Some [] ->
              nth_error sentence_scores i = Some 0.
Proof.
  apply (proj2 (softmin_empty_sentence [[]; [0.8]]) 0.05). lra.
Defined.

(** * Further properties of the scoring entry point *)

Lemma nested_list_ok_shape {A : Type} (x : list A) sentence_length nested :
  nested_list x sentence_length = Ok nested ->
  map (@List.length A) nested = sentence_length /\
  flatten nested = firstn (list_sum sentence_length) x.
Proof.
  unfold nested_list. intros Hrun.
  destruct (le_lt_dec (list_sum sentence_length) (List.length x)) as [Hle|Hgt].
  - destruct (nested_list_iter_enough x sentence_length Hle)
      as (r & Hr & Hflat & Hlen).
    rewrite Hr in Hrun. injection Hrun as <-. auto.
  - rewrite nested_list_iter_exhausted in Hrun by assumption. discriminate.
Qed.

Section EntryPointFacts.
Context {T : Type}.
Variable scorer : list nat -> list (list R) -> string -> result (list R).
Implicit Types (labels : list (list nat)) (pred_probs : list (list (list R))).
Implicit Types (tokens : option (list (list T))) (tm sm : string).
Implicit Types (kwargs : list (string * temperature)).

Lemma entry_point_after_nesting labels pred_probs tokens tm sm kwargs ts nl :
  str_in sm methods = true ->
  scorer (flatten labels) (flatten pred_probs) tm = Ok ts ->
  nested_list ts (map (@List.length nat) labels) = Ok nl ->
  get_label_quality_scores scorer labels pred_probs tokens tm sm kwargs
  = (sentence_scores <-
       (if String.eqb sm "min" then mapM np_min nl
        else _softmin_sentence_score nl
               (dict_get kwargs "temperature" default_temperature)) ;;
     token_info <-
       (if truthy tokens
        then mapM (fun '(scores, token) => pd_Series scores (Some token))
               (combine nl (match tokens with Some tk => tk | None => [] end))
        else mapM (fun scores => pd_Series scores None) nl) ;;
     Ok (sentence_scores, token_info)).
Proof.
  intros Hm Hts Hnl. unfold get_label_quality_scores.
  rewrite Hm. simpl. rewrite Hts. simpl. rewrite Hnl. simpl.
  apply str_in_methods in Hm as [->| ->]; reflexivity.
Qed.

Lemma entry_point_success labels pred_probs tokens tm sm kwargs r :
  get_label_quality_scores scorer labels pred_probs tokens tm sm kwargs = Ok r ->
  str_in sm methods = true /\
  exists ts nl,
    scorer (flatten labels) (flatten pred_probs) tm = Ok ts /\
    nested_list ts (map (@List.length nat) labels) = Ok nl.
Proof.
  unfold get_label_quality_scores.
  destruct (str_in sm methods); simpl; [|discriminate].
  destruct (scorer _ _ _) as [ts|e] eqn:Hts; simpl; [|discriminate].
  destruct (nested_list ts _) as [nl|e] eqn:Hnl; simpl; [|discriminate].
  intros _. split; [reflexivity|]. exists ts, nl. split; [reflexivity|exact Hnl].
Qed.

Lemma aggregation_length sm kwargs (nl : list (list R)) ss :
  (if String.eqb sm "min" then mapM np_min nl
   else _softmin_sentence_score nl
          (dict_get kwargs "temperature" default_temperature)) = Ok ss ->
  List.length ss = List.length nl.
Proof.
  destruct (String.eqb sm "min"); [apply mapM_length|].
  unfold _softmin_sentence_score.
  destruct (dict_get _ _ _) as [t|].
  - destruct (Req_dec_T t 0); [apply mapM_length|].
    intros [= <-]. apply length_map.
  - intros [= <-]. apply length_map.
Qed.

Lemma mapM_nth_error {A B : Type} (f : A -> result B) l bs i a b :
  mapM f l = Ok bs -> nth_error l i = Some a -> nth_error bs i = Some b ->
  f a = Ok b.
Proof.
  revert bs i; induction l as [|x l IH]; intros bs i; simpl.
  - intros _ Hi. destruct i; discriminate.
  - destruct (f x) as [y|] eqn:Hfx; simpl; [|discriminate].
    destruct (mapM f l) as [ys|]; simpl; [|discriminate].
    intros [= <-]. destruct i as [|i]; simpl.
    + intros [= <-] [= <-]. assumption.
    + now apply IH.
Qed.

Lemma nth_error_combine {A B : Type} (l1 : list A) (l2 : list B) i a b :
  nth_error (combine l1 l2) i = Some (a, b) ->
  nth_error l1 i = Some a /\ nth_error l2 i = Some b.
Proof.
  revert l2 i; induction l1 as [|x l1 IH]; intros [|y l2] [|i]; simpl;
    try discriminate.
  - intros [= <- <-]. auto.
  - apply IH.
Qed.

Lemma pd_Series_values (scores : list R) (idx : option (list T)) series :
  pd_Series scores idx = Ok series -> values series = scores.
Proof.
  destruct idx as [token|]; simpl.
  - destruct (Nat.eqb _ _); [|discriminate]. now intros [= <-].
  - now intros [= <-].
Qed.

End EntryPointFacts.

(** Shape of a successful result: one sentence score per sentence of
    [labels]; one series per sentence of [labels], or, when tokens are
    given, per sentence that both [labels] and [tokens] have; and the
    series of sentence [i] holds as many values as [labels[i]] has
    labels. *)
Theorem result_follows_label_shape {T : Type}
  (scorer : list nat -> list (list R) -> string -> result (list R))
  (labels : list (list nat)) (pred_probs : list (list (list R)))
  (tokens : option (list (list T))) (tm sm : string)
  (kwargs : list (string * temperature))
  (sentence_scores : list R) (token_info : list (Series T)) :
  get_label_quality_scores scorer labels pred_probs tokens tm sm kwargs
  = Ok (sentence_scores, token_info) ->
  List.length sentence_scores = List.length labels /\
  List.length token_info
  = (if truthy tokens
     then Nat.min (List.length labels)
            (List.length (match tokens with Some tk => tk | None => [] end))
     else List.length labels) /\
  forall i label series,
    nth_error labels i = Some label ->
    nth_error token_info i = Some series ->
    List.length (values series) = List.length label.
Proof.
  intros Hrun.
  destruct (entry_point_success scorer _ _ _ _ _ _ _ Hrun)
    as (Hm & ts & nl & Hts & Hnl).
  rewrite (entry_point_after_nesting scorer _ _ tokens _ _ kwargs _ _ Hm Hts Hnl)
    in Hrun.
  apply nested_list_ok_shape in Hnl as (Hshape & _).
  assert (Hlen : List.length nl = List.length labels).
  { rewrite <- (length_map (@List.length R) nl), Hshape. apply length_map. }
  match type of Hrun with bind ?agg _ = _ =>
    destruct agg as [ss|e] eqn:Hagg end; simpl in Hrun; [|discriminate].
  match type of Hrun with bind ?ser _ = _ =>
    destruct ser as [ti|e] eqn:Hser end; simpl in Hrun; [|discriminate].
  injection Hrun as <- <-.
  apply aggregation_length in Hagg.
  split; [congruence|].
  assert (Hrow : forall i label scores,
             nth_error labels i = Some label -> nth_error nl i = Some scores ->
             List.length scores = List.length label).
  { intros i label scores Hl Hs.
    apply (map_nth_error (@List.length nat)) in Hl.
    apply (map_nth_error (@List.length R)) in Hs.
    rewrite Hshape, Hl in Hs. congruence. }
  destruct (truthy tokens).
  - split.
    + apply mapM_length in Hser. rewrite Hser, length_combine. congruence.
    + intros i label series Hl Hi.
      destruct (nth_error (combine nl
                  (match tokens with Some tk => tk | None => [] end)) i)
        as [[scores token]|] eqn:Hc.
      * pose proof (mapM_nth_error _ _ _ _ _ _ Hser Hc Hi) as Hf.
        apply (pd_Series_values scores (Some token)) in Hf. rewrite Hf.
        apply nth_error_combine in Hc as (Hs & _).
        eapply Hrow; eauto.
      * exfalso. apply nth_error_None in Hc. apply mapM_length in Hser.
        assert (i < List.length ti)%nat by (apply nth_error_Some; congruence).
        lia.
  - split.
    + apply mapM_length in Hser. congruence.
    + intros i label series Hl Hi.
      destruct (nth_error nl i) as [scores|] eqn:Hs.
      * pose proof (mapM_nth_error _ _ _ _ _ _ Hser Hs Hi) as Hf.
        apply (pd_Series_values scores None) in Hf. rewrite Hf.
        eapply Hrow; eauto.
      * exfalso. apply nth_error_None in Hs.
        assert (i < List.length labels)%nat by (apply nth_error_Some; congruence).
        lia.
Qed.

Lemma result_follows_label_shape_witness :
  List.length [0.7; 0.2] = 2%nat /\
  List.length [mkSeries (T:=string) [0.9; 0.7; 0.95] (RangeIndex 3);
               mkSeries [0.8; 0.2] (RangeIndex 2)] = 2%nat /\
  forall i label series,
    nth_error [[0; 0; 1]; [0; 1]]%nat i = Some label ->
    nth_error [mkSeries (T:=string) [0.9; 0.7; 0.95] (RangeIndex 3);
               mkSeries [0.8; 0.2] (RangeIndex 2)] i = Some series ->
    List.length (values series) = List.length label.
Proof.
  apply (result_follows_label_shape (T:=string) self_confidence_scorer
           [[0; 0; 1]; [0; 1]]%nat
           [[[0.9; 0.1]; [0.7; 0.3]; [0.05; 0.95]]; [[0.8; 0.2]; [0.8; 0.2]]]
           None "self_confidence" "min" []).
  cbv [get_label_quality_scores assert_ str_in methods existsb String.eqb
       Ascii.eqb Bool.eqb orb bind flatten concat app map List.length
       self_confidence_scorer self_confidence Nat.eqb combine mapM nth_error
       nested_list nested_list_iter next_n next np_min fold_left truthy
       pd_Series].
  rmin_eval. reflexivity.
Defined.

Lemma mapM_raises_uniform {A B : Type} (f : A -> result B) (l : list A) e0 a :
  (forall x e, f x = Raise e -> e = e0) ->
  In a l -> f a = Raise e0 -> mapM f l = Raise e0.
Proof.
  intros Huni. induction l as [|x l IH]; intros Hin Ha; [contradiction|].
  simpl. destruct (f x) as [y|e] eqn:Hfx; simpl.
  - destruct Hin as [->|Hin]; [congruence|].
    now rewrite (IH Hin Ha).
  - now rewrite (Huni x e Hfx).
Qed.

Lemma mapM_In {A B : Type} (f : A -> result B) l bs b :
  mapM f l = Ok bs -> In b bs -> exists a, In a l /\ f a = Ok b.
Proof.
  revert bs; induction l as [|x l IH]; intros bs; simpl.
  - intros [= <-] [].
  - destruct (f x) as [y|] eqn:Hfx; simpl; [|discriminate].
    destruct (mapM f l) as [ys|]; simpl; [|discriminate].
    intros [= <-] [<-|Hin].
    + exists x. auto.
    + destruct (IH ys eq_refl Hin) as (a & Ha & Hfa). exists a. auto.
Qed.

Lemma aggregation_raise sm kwargs (nl : list (list R)) e :
  (if String.eqb sm "min" then mapM np_min nl
   else _softmin_sentence_score nl
          (dict_get kwargs "temperature" default_temperature)) = Raise e ->
  e = ValueError.
Proof.
  destruct (String.eqb sm "min").
  - intros H. apply mapM_raise in H as (s & _ & H). now apply np_min_raise in H.
  - apply softmin_raise.
Qed.

(** With the "softmin" method and temperature 0 the call gives what the
    "min" method gives on the same data, errors included. *)
Theorem softmin_at_zero_is_min {T : Type}
  (scorer : list nat -> list (list R) -> string -> result (list R))
  (labels : list (list nat)) (pred_probs : list (list (list R)))
  (tokens : option (list (list T))) (tm : string)
  (kwargs kwargs' : list (string * temperature)) :
  dict_get kwargs "temperature" default_temperature = Finite 0 ->
  get_label_quality_scores scorer labels pred_probs tokens tm "softmin" kwargs
  = get_label_quality_scores scorer labels pred_probs tokens tm "min" kwargs'.
Proof.
  intros Htemp. unfold get_label_quality_scores. simpl.
  destruct (scorer _ _ _) as [ts|e]; simpl; [|reflexivity].
  destruct (nested_list ts _) as [nl|e]; simpl; [|reflexivity].
  rewrite Htemp. unfold _softmin_sentence_score.
  destruct (Req_dec_T 0 0) as [_|Hneq]; [reflexivity|now contradiction Hneq].
Qed.

Lemma softmin_at_zero_is_min_witness :
  get_label_quality_scores (T:=string) self_confidence_scorer
    [[0; 1]]%nat [[[0.9; 0.1]; [0.8; 0.2]]] None "self_confidence" "softmin"
    [("temperature"%string, Finite 0)]
  = get_label_quality_scores (T:=string) self_confidence_scorer
      [[0; 1]]%nat [[[0.9; 0.1]; [0.8; 0.2]]] None "self_confidence" "min" [].
Proof.
  apply (softmin_at_zero_is_min (T:=string) self_confidence_scorer
           [[0; 1]]%nat [[[0.9; 0.1]; [0.8; 0.2]]] None "self_confidence"
           [("temperature"%string, Finite 0)] []).
  reflexivity.
Defined.

(** When the token scorer returns fewer scores than there are labels, the
    call raises the [StopIteration] of the re-nesting helper. *)
Theorem too_few_token_scores_raise {T : Type}
  (scorer : list nat -> list (list R) -> string -> result (list R))
  (labels : list (list nat)) (pred_probs : list (list (list R)))
  (tokens : option (list (list T))) (tm sm : string)
  (kwargs : list (string * temperature)) (ts : list R) :
  str_in sm methods = true ->
  scorer (flatten labels) (flatten pred_probs) tm = Ok ts ->
  (List.length ts < List.length (flatten labels))%nat ->
  get_label_quality_scores scorer labels pred_probs tokens tm sm kwargs
  = Raise StopIteration.
Proof.
  intros Hm Hts Hlen. unfold get_label_quality_scores.
  rewrite Hm. simpl. rewrite Hts. simpl.
  unfold nested_list. rewrite nested_list_iter_exhausted; [reflexivity|].
  unfold flatten in Hlen. now rewrite length_concat in Hlen.
Qed.

Lemma too_few_token_scores_raise_witness :
  get_label_quality_scores (T:=string) (fun _ _ _ => Ok [0.9])
    [[0; 1]]%nat [[[0.9; 0.1]; [0.8; 0.2]]] None "self_confidence" "min" []
  = Raise StopIteration.
Proof.
  apply (too_few_token_scores_raise (T:=string) (fun _ _ _ => Ok [0.9])
           [[0; 1]]%nat [[[0.9; 0.1]; [0.8; 0.2]]] None "self_confidence" "min"
           [] [0.9]).
  - reflexivity.
  - reflexivity.
  - simpl. lia.
Defined.

(** When tokens are given and some sentence has another number of tokens
    than of labels, the call raises [ValueError], provided the token scorer
    returned at least one score per label. *)
Theorem token_shape_mismatch_raises {T : Type}
  (scorer : list nat -> list (list R) -> string -> result (list R))
  (labels : list (list nat)) (pred_probs : list (list (list R)))
  (tk : list (list T)) (tm sm : string)
  (kwargs : list (string * temperature)) (ts : list R)
  (i : nat) (label : list nat) (token : list T) :
  str_in sm methods = true ->
  scorer (flatten labels) (flatten pred_probs) tm = Ok ts ->
  (List.length (flatten labels) <= List.length ts)%nat ->
  nth_error labels i = Some label ->
  nth_error tk i = Some token ->
  List.length label <> List.length token ->
  get_label_quality_scores scorer labels pred_probs (Some tk) tm sm kwargs
  = Raise ValueError.
Proof.
  intros Hm Hts Hlen Hl Ht Hneq.
  destruct (nested_list_iter_enough ts (map (@List.length nat) labels))
    as (nl & Hnl & _ & Hshape).
  { unfold flatten in Hlen. now rewrite length_concat in Hlen. }
  rewrite (entry_point_after_nesting scorer _ _ (Some tk) _ _ kwargs _ _ Hm Hts Hnl).
  match goal with |- bind ?agg _ = _ => destruct agg as [ss|e] eqn:Hagg end;
    cbn [bind].
  2:{ apply aggregation_raise in Hagg. now subst. }
  assert (Htruthy : truthy (Some tk) = true)
    by (destruct tk; [destruct i; discriminate|reflexivity]).
  rewrite Htruthy.
  assert (Hs : exists scores, nth_error nl i = Some scores /\
                              List.length scores = List.length label).
  { apply (map_nth_error (@List.length nat)) in Hl. rewrite <- Hshape in Hl.
    rewrite nth_error_map in Hl.
    destruct (nth_error nl i) as [scores|]; [|discriminate].
    exists scores. split; [reflexivity|]. simpl in Hl. congruence. }
  destruct Hs as (scores & Hs & Hlen_s).
  rewrite (mapM_raises_uniform _ _ ValueError (scores, token)); [reflexivity| | |].
  - intros [sc t0] e He. now apply (pd_Series_raise sc (Some t0)).
  - apply nth_error_In with i.
    clear - Hs Ht. revert tk i Hs Ht.
    induction nl as [|s nl IH]; intros [|t0 tk] [|i]; simpl; try discriminate.
    + now intros [= <-] [= <-].
    + apply IH.
  - simpl. rewrite Hlen_s.
    now rewrite (proj2 (Nat.eqb_neq _ _) Hneq).
Qed.

Lemma token_shape_mismatch_raises_witness :
  get_label_quality_scores self_confidence_scorer
    [[0; 1]]%nat [[[0.9; 0.1]; [0.8; 0.2]]] (Some [["only"%string]])
    "self_confidence" "min" []
  = Raise ValueError.
Proof.
  apply (token_shape_mismatch_raises self_confidence_scorer
           [[0; 1]]%nat [[[0.9; 0.1]; [0.8; 0.2]]] [["only"%string]]
           "self_confidence" "min" [] [0.9; 0.2] 0 [0; 1]%nat ["only"%string]).
  - reflexivity.
  - reflexivity.
  - simpl. lia.
  - reflexivity.
  - reflexivity.
  - discriminate.
Defined.

(** *** Scores stay in the unit interval *)

Lemma mapM_np_min_minimum (nl : list (list R)) ss :
  mapM np_min nl = Ok ss -> Forall2 is_minimum nl ss.
Proof.
  revert ss; induction nl as [|s nl IH]; intros ss; simpl.
  - intros [= <-]. constructor.
  - destruct (np_min s) as [m|] eqn:Hm; simpl; [|discriminate].
    destruct (mapM np_min nl) as [ms|]; simpl; [|discriminate].
    intros [= <-]. constructor; [|now apply IH].
    destruct s as [|a r]; [discriminate|].
    destruct (np_min_is_minimum (a :: r)) as (m' & Hm' & Hmin); [simpl; lia|].
    congruence.
Qed.

Lemma mapM_np_min_unit (nl : list (list R)) ss :
  Forall (Forall unit_score) nl -> mapM np_min nl = Ok ss ->
  Forall unit_score ss.
Proof.
  intros Hnl H. apply mapM_np_min_minimum in H.
  induction H as [|s m nl' ss' (Hin & _) _ IH]; constructor.
  - inversion Hnl as [|? ? Hs _]; subst.
    rewrite Forall_forall in Hs. now apply Hs.
  - apply IH. now inversion Hnl.
Qed.

(** When the token scorer returns scores in [[0, 1]], every sentence score
    and every token score of a successful result lies in [[0, 1]], for the
    "min" method and for the "softmin" method at temperature 0, which both
    take minima. *)
Theorem min_result_scores_in_unit_interval {T : Type}
  (scorer : list nat -> list (list R) -> string -> result (list R))
  (labels : list (list nat)) (pred_probs : list (list (list R)))
  (tokens : option (list (list T))) (tm sm : string)
  (kwargs : list (string * temperature)) (ts : list R)
  (sentence_scores : list R) (token_info : list (Series T)) :
  scorer (flatten labels) (flatten pred_probs) tm = Ok ts ->
  Forall unit_score ts ->
  sm = "min"%string \/
  dict_get kwargs "temperature" default_temperature = Finite 0 ->
  get_label_quality_scores scorer labels pred_probs tokens tm sm kwargs
  = Ok (sentence_scores, token_info) ->
  Forall unit_score sentence_scores /\
  Forall (fun series => Forall unit_score (values series)) token_info.
Proof.
  intros Hts Hunit Hmin Hrun.
  destruct (entry_point_success scorer _ _ _ _ _ _ _ Hrun)
    as (Hm & ts' & nl & Hts' & Hnl).
  rewrite Hts in Hts'. injection Hts' as <-.
  rewrite (entry_point_after_nesting scorer _ _ tokens _ _ kwargs _ _ Hm Hts Hnl)
    in Hrun.
  apply nested_list_ok_shape in Hnl as (_ & Hflat).
  assert (Hall : Forall (Forall unit_score) nl).
  { apply Forall_forall. intros s Hs.
    apply Forall_forall. intros x Hx.
    assert (Hin : In x (flatten nl))
      by (unfold flatten; apply in_concat; eauto).
    rewrite Hflat in Hin.
    rewrite Forall_forall in Hunit. apply Hunit.
    rewrite <- (firstn_skipn (list_sum (map (@List.length nat) labels)) ts).
    apply in_or_app. now left. }
  match type of Hrun with bind ?agg _ = _ =>
    destruct agg as [ss|e] eqn:Hagg end; cbn [bind] in Hrun; [|discriminate].
  match type of Hrun with bind ?ser _ = _ =>
    destruct ser as [ti|e] eqn:Hser end; cbn [bind] in Hrun; [|discriminate].
  injection Hrun as <- <-. split.
  - apply (mapM_np_min_unit nl); [assumption|].
    destruct (String.eqb sm "min") eqn:Hsm; [assumption|].
    destruct Hmin as [->|Htemp]; [discriminate|].
    rewrite Htemp in Hagg. unfold _softmin_sentence_score in Hagg.
    destruct (Req_dec_T 0 0) as [_|Hneq]; [assumption|now contradiction Hneq].
  - apply Forall_forall. intros series Hin.
    rewrite Forall_forall in Hall.
    destruct (truthy tokens).
    + destruct (mapM_In _ _ _ _ Hser Hin) as ([scores token] & Hc & Hf).
      apply (pd_Series_values scores (Some token)) in Hf. rewrite Hf.
      apply in_combine_l in Hc. now apply Hall.
    + destruct (mapM_In _ _ _ _ Hser Hin) as (scores & Hc & Hf).
      apply (pd_Series_values scores None) in Hf. rewrite Hf.
      now apply Hall.
Qed.

Lemma min_result_scores_in_unit_interval_witness :
  Forall unit_score [0.7; 0.2] /\
  Forall (fun series : Series string => Forall unit_score (values series))
    [mkSeries [0.9; 0.7; 0.95] (RangeIndex 3);
     mkSeries [0.8; 0.2] (RangeIndex 2)].
Proof.
  apply (min_result_scores_in_unit_interval (T:=string) self_confidence_scorer
           [[0; 0; 1]; [0; 1]]%nat
           [[[0.9; 0.1]; [0.7; 0.3]; [0.05; 0.95]]; [[0.8; 0.2]; [0.8; 0.2]]]
           None "self_confidence" "min" [] [0.9; 0.7; 0.95; 0.8; 0.2]).
  - reflexivity.
  - repeat constructor; lra.
  - left. reflexivity.
  - cbv [get_label_quality_scores assert_ str_in methods existsb String.eqb
         Ascii.eqb Bool.eqb orb bind flatten concat app map List.length
         self_confidence_scorer self_confidence Nat.eqb combine mapM nth_error
         nested_list nested_list_iter next_n next np_min fold_left truthy
         pd_Series].
    rmin_eval. reflexivity.
Defined.

(** *** A sentence without labels *)

(** When [labels] holds an empty sentence and the token scorer returns at
    least one score per label, the "min" method raises [ValueError], while
    the "softmin" method at a finite non-zero temperature (the default
    included), called without tokens, returns and scores every empty
    sentence 0. *)
Theorem empty_sentence_min_raises_softmin_zero {T : Type}
  (scorer : list nat -> list (list R) -> string -> result (list R))
  (labels : list (list nat)) (pred_probs : list (list (list R)))
  (tm : string) (kwargs : list (string * temperature)) (ts : list R) (t : R) :
  In [] labels ->
  scorer (flatten labels) (flatten pred_probs) tm = Ok ts ->
  (List.length (flatten labels) <= List.length ts)%nat ->
  dict_get kwargs "temperature" default_temperature = Finite t -> t <> 0 ->
  (forall tokens : option (list (list T)),
     get_label_quality_scores scorer labels pred_probs tokens tm "min" kwargs
     = Raise ValueError) /\
  exists sentence_scores token_info,
    get_label_quality_scores (T:=T) scorer labels pred_probs None tm "softmin" kwargs
    = Ok (sentence_scores, token_info) /\
    forall i, nth_error labels i = Some [] ->
              nth_error sentence_scores i = Some 0.
Proof.
  intros Hempty Hts Hlen Htemp Ht.
  destruct (nested_list_iter_enough ts (map (@List.length nat) labels))
    as (nl & Hnl & _ & Hshape).
  { unfold flatten in Hlen. now rewrite length_concat in Hlen. }
  assert (Hrow : forall i, nth_error labels i = Some [] -> nth_error nl i = Some []).
  { intros i Hi. apply (map_nth_error (@List.length nat)) in Hi.
    rewrite <- Hshape, nth_error_map in Hi.
    destruct (nth_error nl i) as [[|x s]|]; simpl in Hi; congruence. }
  split.
  - intros tokens.
    rewrite (entry_point_after_nesting scorer _ _ tokens _ "min" kwargs _ _
               eq_refl Hts Hnl).
    cbn [String.eqb Ascii.eqb Bool.eqb].
    apply In_nth_error in Hempty as (i & Hi).
    rewrite (proj2 (mapM_np_min_empty nl)); [reflexivity|].
    eapply nth_error_In. eauto.
  - rewrite (entry_point_after_nesting scorer _ _ None _ "softmin" kwargs _ _
               eq_refl Hts Hnl).
    cbn [String.eqb Ascii.eqb Bool.eqb truthy]. rewrite Htemp.
    unfold _softmin_sentence_score.
    destruct (Req_dec_T t 0) as [Heq|_]; [contradiction|]. cbn [bind].
    rewrite (mapM_ok _ (fun s => mkSeries s (RangeIndex (List.length s))))
      by reflexivity.
    cbn [bind]. do 2 eexists. split; [reflexivity|].
    intros i Hi. rewrite nth_error_map, (Hrow i Hi). reflexivity.
Qed.

Lemma empty_sentence_min_raises_softmin_zero_witness :
  (forall tokens : option (list (list string)),
     get_label_quality_scores self_confidence_scorer
       [[0]; []]%nat [[[0.9; 0.1]]; []] tokens "self_confidence" "min" []
     = Raise ValueError) /\
  exists sentence_scores token_info,
    get_label_quality_scores (T:=string) self_confidence_scorer
      [[0]; []]%nat [[[0.9; 0.1]]; []] None "self_confidence" "softmin" []
    = Ok (sentence_scores, token_info) /\
    forall i, nth_error [[0]; []]%nat i = Some [] ->
              nth_error sentence_scores i = Some 0.
Proof.
  apply (empty_sentence_min_raises_softmin_zero (T:=string)
           self_confidence_scorer [[0]; []]%nat [[[0.9; 0.1]]; []]
           "self_confidence" [] [0.9] 0.05).
  - right. left. reflexivity.
  - reflexivity.
  - simpl. lia.
  - reflexivity.
  - lra.
Defined.

(** *** The two outputs of the entry point *)

Lemma mapM_series_values {T : Type} (nl : list (list R)) (ti : list (Series T)) :
  mapM (fun scores => pd_Series scores None) nl = Ok ti ->
  map values ti = nl.
Proof.
  rewrite (mapM_ok _ (fun s => mkSeries s (RangeIndex (List.length s))))
    by reflexivity.
  intros [= <-]. rewrite map_map. apply map_id.
Qed.

(** Without tokens, the token scores of a successful result are the scores
    the token scorer returned, one per label and in the scorer's order; any
    further scores are left out. *)
Theorem token_info_carries_scorer_output {T : Type}
  (scorer : list nat -> list (list R) -> string -> result (list R))
  (labels : list (list nat)) (pred_probs : list (list (list R)))
  (tm sm : string) (kwargs : list (string * temperature)) (ts : list R)
  (sentence_scores : list R) (token_info : list (Series T)) :
  scorer (flatten labels) (flatten pred_probs) tm = Ok ts ->
  get_label_quality_scores scorer labels pred_probs None tm sm kwargs
  = Ok (sentence_scores, token_info) ->
  flatten (map values token_info)
  = firstn (List.length (flatten labels)) ts.
Proof.
  intros Hts Hrun.
  destruct (entry_point_success scorer _ _ _ _ _ _ _ Hrun)
    as (Hm & ts' & nl & Hts' & Hnl).
  rewrite Hts in Hts'. injection Hts' as <-.
  rewrite (entry_point_after_nesting scorer _ _ None _ _ kwargs _ _ Hm Hts Hnl)
    in Hrun.
  apply nested_list_ok_shape in Hnl as (_ & Hflat).
  match type of Hrun with bind ?agg _ = _ =>
    destruct agg as [ss|e] end; cbn [bind truthy] in Hrun; [|discriminate].
  match type of Hrun with bind ?ser _ = _ =>
    destruct ser as [ti|e] eqn:Hser end; cbn [bind] in Hrun; [|discriminate].
  injection Hrun as <- <-.
  rewrite (mapM_series_values nl ti Hser), Hflat.
  unfold flatten. now rewrite length_concat.
Qed.

Lemma token_info_carries_scorer_output_witness :
  flatten (map values
             [mkSeries (T:=string) [0.9] (RangeIndex 1);
              mkSeries [0.2] (RangeIndex 1)])
  = firstn (List.length (flatten [[0]; [1]]%nat)) [0.9; 0.2; 0.4].
Proof.
  apply (token_info_carries_scorer_output (T:=string)
           (fun _ _ _ => Ok [0.9; 0.2; 0.4])
           [[0]; [1]]%nat [] "self_confidence" "min" [] [0.9; 0.2; 0.4]
           [0.9; 0.2]).
  - reflexivity.
  - reflexivity.
Defined.

(** With the "min" method and no tokens, each sentence score of a
    successful result is the least value of the series returned for that
    sentence. *)
Theorem min_score_is_least_of_series {T : Type}
  (scorer : list nat -> list (list R) -> string -> result (list R))
  (labels : list (list nat)) (pred_probs : list (list (list R)))
  (tm : string) (kwargs : list (string * temperature))
  (sentence_scores : list R) (token_info : list (Series T)) :
  get_label_quality_scores scorer labels pred_probs None tm "min" kwargs
  = Ok (sentence_scores, token_info) ->
  Forall2 (fun series m => is_minimum (values series) m)
    token_info sentence_scores.
Proof.
  intros Hrun.
  destruct (entry_point_success scorer _ _ _ _ _ _ _ Hrun)
    as (Hm & ts & nl & Hts & Hnl).
  rewrite (entry_point_after_nesting scorer _ _ None _ _ kwargs _ _ Hm Hts Hnl)
    in Hrun.
  cbn [String.eqb Ascii.eqb Bool.eqb truthy] in Hrun.
  destruct (mapM np_min nl) as [ss|e] eqn:Hagg; cbn [bind] in Hrun;
    [|discriminate].
  match type of Hrun with bind ?ser _ = _ =>
    destruct ser as [ti|e] eqn:Hser end; cbn [bind] in Hrun; [|discriminate].
  injection Hrun as <- <-.
  apply mapM_np_min_minimum in Hagg.
  apply mapM_series_values in Hser. subst nl.
  clear - Hagg. remember (map values ti) as vs eqn:Hvs.
  revert ti Hvs. induction Hagg as [|s m vs ss Hs _ IH]; intros [|x ti] Hvs;
    simpl in Hvs; try discriminate; constructor.
  - injection Hvs as -> _. exact Hs.
  - apply IH. now injection Hvs.
Qed.

Lemma min_score_is_least_of_series_witness :
  Forall2 (fun (series : Series string) m => is_minimum (values series) m)
    [mkSeries [0.9; 0.7; 0.95] (RangeIndex 3);
     mkSeries [0.8; 0.2] (RangeIndex 2)]
    [0.7; 0.2].
Proof.
  apply (min_score_is_least_of_series (T:=string) self_confidence_scorer
           [[0; 0; 1]; [0; 1]]%nat
           [[[0.9; 0.1]; [0.7; 0.3]; [0.05; 0.95]]; [[0.8; 0.2]; [0.8; 0.2]]]
           "self_confidence" []).
  cbv [get_label_quality_scores assert_ str_in methods existsb String.eqb
       Ascii.eqb Bool.eqb orb bind flatten concat app map List.length
       self_confidence_scorer self_confidence Nat.eqb combine mapM nth_error
       nested_list nested_list_iter next_n next np_min fold_left truthy
       pd_Series].
  rmin_eval. reflexivity.
Defined.
